(** * The Face: the particle / flocking simulation

    A shallow embedding of the sketch's [Particle] and [ParticleSystem]
    classes (the flocking forces, the attraction step, the lifespan and
    population management) together with the few p5.js primitives they
    call ([p5.Vector], [map], [random], [min]).

    JavaScript numbers are modelled as exact real numbers: every
    statement below is about the arithmetic the code writes down, not
    about binary64 rounding. Objects mutated in place become values
    passed along; the only object the code shares is the particle
    being processed, which lives in the population array and is written
    back at its index. *)

From Stdlib Require Import Reals Lra Psatz.
From stdpp Require Import base decidable option list.

#[local] Open Scope R_scope.

(** ** Deciding the comparisons the code branches on *)

#[global] Instance Rlt_decision : RelDecision Rlt := Rlt_dec.
#[global] Instance Rle_decision : RelDecision Rle := Rle_dec.
#[global] Instance Req_decision : EqDecision R := Req_dec_T.

(** ** p5.Vector (the part of it the sketch uses)

    A p5.Vector always carries three components; [createVector(x, y)]
    leaves [z] at 0. The methods that mutate their receiver and return
    it are functions from the old value to the new one. *)

Module Vector.

Record t : Type := mk { x : R; y : R; z : R }.

Definition createVector (a b : R) : t := mk a b 0.

Definition add (v w : t) : t := mk (x v + x w) (y v + y w) (z v + z w).

Definition sub (v w : t) : t := mk (x v - x w) (y v - y w) (z v - z w).

Definition mult (v : t) (n : R) : t := mk (x v * n) (y v * n) (z v * n).

(** [div] warns and leaves the vector alone when asked to divide by 0. *)
Definition div (v : t) (n : R) : t :=
  if decide (n = 0) then v else mk (x v / n) (y v / n) (z v / n).

Definition magSq (v : t) : R := x v * x v + y v * y v + z v * z v.

Definition mag (v : t) : R := sqrt (magSq v).

(** [p5.Vector.dist(v1, v2)] is [v2.copy().sub(v1).mag()]. *)
Definition dist (v1 v2 : t) : R := mag (sub v2 v1).

Definition normalize (v : t) : t :=
  let len := mag v in
  if decide (len = 0) then v else mult v (1 / len).

Definition limit (v : t) (max : R) : t :=
  let mSq := magSq v in
  if decide (max * max < mSq) then mult (div v (sqrt mSq)) max else v.

(** [p5.Vector.random2D()] is [fromAngle] of a raw draw times [TWO_PI]. *)
Definition random2D (u : R) : t :=
  let angle := u * (2 * PI) in mk (1 * cos angle) (1 * sin angle) 0.

End Vector.

(** ** The p5 globals the sketch calls *)

Module P5.

(** [map] without the optional clamping flag. *)
Definition map (n start1 stop1 start2 stop2 : R) : R :=
  (n - start1) / (stop1 - start1) * (stop2 - start2) + start2.

(** [random(min, max)] applied to the raw draw [u] of the generator. *)
Definition random (u min max : R) : R :=
  if decide (max < min) then u * (min - max) + max else u * (max - min) + min.

(** [random(max)]. *)
Definition random1 (u max : R) : R := u * max.

Definition min (a b : R) : R := Rmin a b.

End P5.

(** ** Particle *)

Module Particle.

Record rgba : Type := mkColor { r : R; g : R; b : R; a : R }.

Record t : Type := mk {
  position : Vector.t;
  velocity : Vector.t;
  acceleration : Vector.t;
  maxSpeed : R;
  maxForce : R;
  size : R;
  color : rgba;
  lifespan : R;
  decay : R;
  isAttracted : bool
}.

Definition with_acceleration (p : t) (v : Vector.t) : t :=
  mk (position p) (velocity p) v (maxSpeed p) (maxForce p) (size p)
     (color p) (lifespan p) (decay p) (isAttracted p).

Definition with_isAttracted (p : t) (f : bool) : t :=
  mk (position p) (velocity p) (acceleration p) (maxSpeed p) (maxForce p)
     (size p) (color p) (lifespan p) (decay p) f.

(** The constructor. [u] gives the raw draws of the random generator in
    the order the constructor asks for them: the heading, the speed,
    the size, the four colour channels and the decay. *)
Definition new (px py : R) (u : nat -> R) : t :=
  {| position := Vector.createVector px py;
     velocity := Vector.mult (Vector.random2D (u 0%nat)) (P5.random (u 1%nat) 0.5 2);
     acceleration := Vector.createVector 0 0;
     maxSpeed := 4;
     maxForce := 0.1;
     size := P5.random (u 2%nat) 3 8;
     color := {| r := P5.random (u 3%nat) 150 255;
                 g := P5.random (u 4%nat) 150 255;
                 b := P5.random (u 5%nat) 150 255;
                 a := P5.random (u 6%nat) 150 200 |};
     lifespan := 255;
     decay := P5.random (u 7%nat) 0.5 1.5;
     isAttracted := false |}.

Definition applyForce (p : t) (force : Vector.t) : t :=
  with_acceleration p (Vector.add (acceleration p) force).

Definition seek (p : t) (target : Vector.t) (strength : R) : Vector.t :=
  let desired := Vector.sub target (position p) in
  let distance := Vector.mag desired in
  if decide (distance < 1) then Vector.createVector 0 0
  else
    let desired := Vector.normalize desired in
    let desired := Vector.mult desired (maxSpeed p) in
    let steer := Vector.sub desired (velocity p) in
    let steer := Vector.limit steer (maxForce p) in
    let steer := Vector.mult steer strength in
    steer.

(** The qualifying test shared by the three neighbour loops:
    [(d > 0) && (d < radius)]. *)
Definition near (p other : t) (radius : R) : bool :=
  let d := Vector.dist (position p) (position other) in
  bool_decide (0 < d) && bool_decide (d < radius).

(** One turn of the [for ... of] loop of [separate]. *)
Definition separate_body (p : t) (desiredSeparation : R)
    (acc : Vector.t * nat) (other : t) : Vector.t * nat :=
  let d := Vector.dist (position p) (position other) in
  if near p other desiredSeparation then
    let diff := Vector.sub (position p) (position other) in
    let diff := Vector.normalize diff in
    let diff := Vector.div diff d in
    (Vector.add (fst acc) diff, S (snd acc))
  else acc.

Definition separate (p : t) (particles : list t) (desiredSeparation : R) : Vector.t :=
  let '(steer, count) :=
    fold_left (separate_body p desiredSeparation) particles
              (Vector.createVector 0 0, 0%nat) in
  let steer := if decide (0 < count)%nat then Vector.div steer (INR count) else steer in
  if decide (0 < Vector.mag steer) then
    let steer := Vector.normalize steer in
    let steer := Vector.mult steer (maxSpeed p) in
    let steer := Vector.sub steer (velocity p) in
    Vector.limit steer (maxForce p)
  else steer.

(** One turn of the loop shared by [align] and [cohesion]; [pick] is the
    field of the neighbour that is summed. *)
Definition sum_body (p : t) (neighborDistance : R) (pick : t -> Vector.t)
    (acc : Vector.t * nat) (other : t) : Vector.t * nat :=
  if near p other neighborDistance then
    (Vector.add (fst acc) (pick other), S (snd acc))
  else acc.

Definition align (p : t) (particles : list t) (neighborDistance : R) : Vector.t :=
  let '(sum, count) :=
    fold_left (sum_body p neighborDistance velocity) particles
              (Vector.createVector 0 0, 0%nat) in
  if decide (0 < count)%nat then
    let sum := Vector.div sum (INR count) in
    let sum := Vector.normalize sum in
    let sum := Vector.mult sum (maxSpeed p) in
    let steer := Vector.sub sum (velocity p) in
    Vector.limit steer (maxForce p)
  else Vector.createVector 0 0.

Definition cohesion (p : t) (particles : list t) (neighborDistance : R) : Vector.t :=
  let '(sum, count) :=
    fold_left (sum_body p neighborDistance position) particles
              (Vector.createVector 0 0, 0%nat) in
  if decide (0 < count)%nat then
    let sum := Vector.div sum (INR count) in
    seek p sum 0.5
  else Vector.createVector 0 0.

(** [desired] starts as [null] ([None]); [desired || v] keeps a vector
    already chosen. *)
Definition borders (p : t) (width height : R) : Vector.t :=
  let buffer := 50 in
  let desired : option Vector.t :=
    if decide (Vector.x (position p) < buffer) then
      Some (Vector.createVector (maxSpeed p) (Vector.y (velocity p)))
    else if decide (width - buffer < Vector.x (position p)) then
      Some (Vector.createVector (- maxSpeed p) (Vector.y (velocity p)))
    else None in
  let desired : option Vector.t :=
    if decide (Vector.y (position p) < buffer) then
      Some (default (Vector.createVector (Vector.x (velocity p)) (maxSpeed p)) desired)
    else if decide (height - buffer < Vector.y (position p)) then
      Some (default (Vector.createVector (Vector.x (velocity p)) (- maxSpeed p)) desired)
    else desired in
  match desired with
  | Some desired =>
      let desired := Vector.normalize desired in
      let desired := Vector.mult desired (maxSpeed p) in
      let steer := Vector.sub desired (velocity p) in
      Vector.limit steer (maxForce p)
  | None => Vector.createVector 0 0
  end.

Definition update (p : t) : t :=
  let velocity' := Vector.add (velocity p) (acceleration p) in
  let velocity' := Vector.limit velocity' (maxSpeed p) in
  let position' := Vector.add (position p) velocity' in
  let acceleration' := Vector.mult (acceleration p) 0 in
  let lifespan' :=
    if negb (isAttracted p) then lifespan p - decay p
    else P5.min 255 (lifespan p + decay p * 2) in
  mk position' velocity' acceleration' (maxSpeed p) (maxForce p) (size p)
     (color p) lifespan' (decay p) (isAttracted p).

Definition isDead (p : t) : bool := bool_decide (lifespan p <= 0).

End Particle.

(** ** ParticleSystem

    The sketch's globals are the canvas size and the random generator.
    The generator is a stream [rand] of raw draws in [0, 1) together
    with the number of draws consumed so far, which the system state
    carries in [drawn]. *)

Module ParticleSystem.

Record t : Type := mk {
  particles : list Particle.t;
  attractors : list Vector.t;
  maxParticles : nat;
  drawn : nat
}.

Definition with_particles (s : t) (ps : list Particle.t) : t :=
  mk ps (attractors s) (maxParticles s) (drawn s).

Section Sketch.

Variables width height : R.
Variable rand : nat -> R.

Definition addParticle (s : t) : t :=
  let px := P5.random1 (rand (drawn s)) width in
  let py := P5.random1 (rand (drawn s + 1)) height in
  let p := Particle.new px py (fun k => rand (drawn s + 2 + k)) in
  mk (particles s ++ [p]) (attractors s) (maxParticles s) (drawn s + 10).

(** The [while] loop of [update]: add particles as long as the
    population is below [maxParticles]. [fuel] bounds the number of
    turns. *)
Fixpoint fill (fuel : nat) (s : t) : t :=
  match fuel with
  | O => s
  | S fuel' =>
      if decide (length (particles s) < maxParticles s)%nat
      then fill fuel' (addParticle s)
      else s
  end.

(** The constructor: [numParticles] calls of [addParticle]; [seed] is
    the number of draws the generator has already served. *)
Definition new (numParticles : nat) (seed : nat) : t :=
  Nat.iter numParticles addParticle (mk [] [] numParticles seed).

Definition setAttractors (s : t) (landmarks : list Vector.t) : t :=
  mk (particles s) landmarks (maxParticles s) (drawn s).

(** The scan for the closest attractor in range. [None] stands for the
    initial [closestDist = Infinity], [closestAttractor = null]; the two
    variables are always assigned together. *)
Definition closest_body (pos : Vector.t) (best : option (R * Vector.t))
    (attractor : Vector.t) : option (R * Vector.t) :=
  let d := Vector.dist pos attractor in
  let below_closest :=
    match best with
    | None => true
    | Some (closestDist, _) => bool_decide (d < closestDist)
    end in
  if below_closest && bool_decide (d < 150) then Some (d, attractor) else best.

Definition closest (pos : Vector.t) (atts : list Vector.t) : option (R * Vector.t) :=
  fold_left (closest_body pos) atts None.

(** The force the attraction step hands to [applyForce], if any. *)
Definition attraction (p : Particle.t) (atts : list Vector.t) : option Vector.t :=
  if decide (0 < length atts)%nat then
    match closest (Particle.position p) atts with
    | Some (closestDist, closestAttractor) =>
        let strength := P5.map closestDist 0 150 2.5 0.5 in
        Some (Particle.seek p closestAttractor strength)
    | None => None
    end
  else None.

(** The four flocking forces, applied in the order of the source. *)
Definition flock (p : Particle.t) (ps : list Particle.t) : Particle.t :=
  let separation := Vector.mult (Particle.separate p ps 25) 1.5 in
  let alignment := Vector.mult (Particle.align p ps 50) 1.0 in
  let cohesion := Vector.mult (Particle.cohesion p ps 50) 1.0 in
  let borders := Vector.mult (Particle.borders p width height) 1.5 in
  let p := Particle.applyForce p separation in
  let p := Particle.applyForce p alignment in
  let p := Particle.applyForce p cohesion in
  let p := Particle.applyForce p borders in
  p.

(** Resetting the flag and the attraction step. *)
Definition attract (p : Particle.t) (atts : list Vector.t) : Particle.t :=
  let p := Particle.with_isAttracted p false in
  match attraction p atts with
  | Some force =>
      let p := Particle.applyForce p force in
      Particle.with_isAttracted p true
  | None => p
  end.

(** Everything the loop body does to [p] up to and including
    [p.update()]. *)
Definition process (p : Particle.t) (ps : list Particle.t)
    (atts : list Vector.t) : Particle.t :=
  Particle.update (attract (flock p ps) atts).

(** The body of the [for] loop at index [i]. Reading [particles[i]]
    out of range gives [undefined], on which the first method call
    throws: [None]. *)
Definition body (i : nat) (s : t) : option t :=
  p ← particles s !! i;
  let p' := process p (particles s) (attractors s) in
  let ps := <[i := p']> (particles s) in
  Some (with_particles s (if Particle.isDead p' then delete i ps else ps)).

(** [for (let i = n - 1; i >= 0; i--)]. *)
Fixpoint loop (n : nat) (s : t) : option t :=
  match n with
  | O => Some s
  | S i => s' ← body i s; loop i s'
  end.

(** The [while] loop with the fuel it can need: each turn brings the
    population one closer to [maxParticles]. *)
Definition replenish (s : t) : t :=
  fill (maxParticles s - length (particles s)) s.

(** Replenish, then one pass from the last index down to 0. *)
Definition update (s : t) : option t :=
  let s := replenish s in
  loop (length (particles s)) s.

(** How many of the particles processed by [loop n] are dead after
    their [p.update()]. *)
Fixpoint died (n : nat) (s : t) : nat :=
  match n with
  | O => O
  | S i =>
      match particles s !! i, body i s with
      | Some p, Some s' =>
          let p' := process p (particles s) (attractors s) in
          ((if Particle.isDead p' then 1 else 0) + died i s')%nat
      | _, _ => O
      end
  end.

(** [n] frames of the driver with the attractors left as they are. *)
Fixpoint ticks (n : nat) (s : t) : option t :=
  match n with
  | O => Some s
  | S n' => s' ← update s; ticks n' s'
  end.

(** The states the sketch can be in: a freshly constructed system, then
    any number of [setAttractors] and completed [update] calls. *)
Inductive reachable : t -> Prop :=
| reachable_new (numParticles seed : nat) :
    reachable (new numParticles seed)
| reachable_setAttractors (s : t) (landmarks : list Vector.t) :
    reachable s -> reachable (setAttractors s landmarks)
| reachable_update (s s' : t) :
    reachable s -> update s = Some s' -> reachable s'.

End Sketch.

End ParticleSystem.

(** ** FaceTracker: from a face mesh to attractor points

    The tracker as its first version has it. The video element and the
    ml5 model are outside the embedding; a prediction is the list of
    its [scaledMesh] entries, each an array [x, y, z]. *)

Module FaceTracker.

Record landmark : Type := mkLandmark { lx : R; ly : R; lz : R }.

Record t : Type := mk {
  landmarks : list landmark;
  keypoints : list Vector.t;
  isReady : bool
}.

Definition new : t := mk [] [] false.

Definition leftEye : list nat :=
  [33; 7; 163; 144; 145; 153; 154; 155; 133; 173; 157; 158; 159; 160; 161; 246]%nat.

Definition rightEye : list nat :=
  [362; 382; 381; 380; 374; 373; 390; 249; 263; 466; 388; 387; 386; 385; 384; 398]%nat.

Definition lips : list nat :=
  [61; 146; 91; 181; 84; 17; 314; 405; 321; 375; 291; 409; 270; 269; 267; 0;
   37; 39; 40; 185]%nat.

Definition nose : list nat :=
  [1; 2; 3; 4; 5; 6; 168; 197; 195; 5; 4; 98; 97; 2; 326; 327]%nat.

Definition leftEyebrow : list nat :=
  [70; 63; 105; 66; 107; 55; 65; 52; 53; 46]%nat.

Definition rightEyebrow : list nat :=
  [336; 296; 334; 293; 300; 276; 283; 282; 295; 285]%nat.

Definition faceContour : list nat :=
  [10; 338; 297; 332; 284; 251; 389; 356; 454; 323; 361; 288; 397; 365; 379;
   378; 400; 377; 152; 148; 176; 149; 150; 136; 172; 58; 132; 93; 234; 127;
   162; 21; 54; 103; 67; 109; 10]%nat.

(** [for (let i = 0; i < indices.length; i += spacing)]: a landmark that
    exists gives a point, a missing one is passed over. [fuel] bounds
    the number of turns. *)
Fixpoint addFeaturePoints_loop (fuel i spacing : nat) (indices : list nat)
    (landmarks : list landmark) (keypoints : list Vector.t) : list Vector.t :=
  match fuel with
  | O => keypoints
  | S fuel' =>
      match indices !! i with
      | Some idx =>
          let keypoints :=
            match landmarks !! idx with
            | Some l => keypoints ++ [Vector.createVector (lx l) (ly l)]
            | None => keypoints
            end in
          addFeaturePoints_loop fuel' (i + spacing) spacing indices landmarks keypoints
      | None => keypoints
      end
  end.

Definition addFeaturePoints (landmarks : list landmark) (indices : list nat)
    (spacing : nat) (keypoints : list Vector.t) : list Vector.t :=
  addFeaturePoints_loop (length indices) 0 spacing indices landmarks keypoints.

Definition extractKeypoints (landmarks : list landmark) : list Vector.t :=
  if decide (length landmarks = 0)%nat then []
  else
    let keypoints := [] in
    let keypoints := addFeaturePoints landmarks leftEye 1 keypoints in
    let keypoints := addFeaturePoints landmarks rightEye 1 keypoints in
    let keypoints := addFeaturePoints landmarks lips 1 keypoints in
    let keypoints := addFeaturePoints landmarks nose 2 keypoints in
    let keypoints := addFeaturePoints landmarks leftEyebrow 1 keypoints in
    let keypoints := addFeaturePoints landmarks rightEyebrow 1 keypoints in
    let keypoints := addFeaturePoints landmarks faceContour 3 keypoints in
    keypoints.

(** [results] is the list of the predictions' meshes; only the first
    face is used. *)
Definition processFaceDetection (ft : t) (results : list (list landmark)) : t :=
  match results with
  | mesh :: _ => mk mesh (extractKeypoints mesh) (isReady ft)
  | [] => mk [] [] (isReady ft)
  end.

Definition isTrackerReady (ft : t) : bool := isReady ft.

Definition getKeypoints (ft : t) : list Vector.t := keypoints ft.

Definition getLandmarks (ft : t) : list landmark := landmarks ft.

End FaceTracker.

(** ** The sketch's fallback mode *)

Module Sketch.

Section Canvas.

Variables width height : R.
Variable rand : nat -> R.

(** [for (let angle = 0; angle < TWO_PI; angle += PI / 8)]. *)
Fixpoint outline (fuel : nat) (angle centerX centerY faceSize : R)
    (attractors : list Vector.t) : list Vector.t :=
  match fuel with
  | O => attractors
  | S fuel' =>
      if decide (angle < 2 * PI) then
        let px := centerX + cos angle * faceSize * 0.5 in
        let py := centerY + sin angle * faceSize * 0.5 in
        outline fuel' (angle + PI / 8) centerX centerY faceSize
                (attractors ++ [Vector.createVector px py])
      else attractors
  end.

(** The face pattern [runFallbackMode] builds when there are no
    attractors: eyes, nose, mouth, then the outline. In exact
    arithmetic the outline loop runs 16 times. *)
Definition facePattern : list Vector.t :=
  let centerX := width / 2 in
  let centerY := height / 2 in
  let faceSize := P5.min width height * 0.3 in
  let attractors :=
    [ Vector.createVector (centerX - faceSize * 0.2) (centerY - faceSize * 0.2);
      Vector.createVector (centerX + faceSize * 0.2) (centerY - faceSize * 0.2);
      Vector.createVector centerX centerY;
      Vector.createVector (centerX - faceSize * 0.15) (centerY + faceSize * 0.2);
      Vector.createVector (centerX + faceSize * 0.15) (centerY + faceSize * 0.2) ] in
  outline 16 0 centerX centerY faceSize attractors.

(** The closing loop of [runFallbackMode]: every attractor is moved in
    place by two draws of [random(-1, 1)]; [k] is the number of draws
    served so far. *)
Fixpoint jitter (k : nat) (attractors : list Vector.t) : list Vector.t :=
  match attractors with
  | [] => []
  | a :: rest =>
      Vector.mk (Vector.x a + P5.random (rand k) (-1) 1)
                (Vector.y a + P5.random (rand (k + 1)) (-1) 1)
                (Vector.z a)
      :: jitter (k + 2) rest
  end.

(** One frame of the fallback mode; [display] draws and changes
    nothing. *)
Definition runFallbackMode (s : ParticleSystem.t) : option ParticleSystem.t :=
  let s :=
    if decide (length (ParticleSystem.attractors s) = 0)%nat
    then ParticleSystem.setAttractors s facePattern
    else s in
  s ← ParticleSystem.update width height rand s;
  if decide (0 < length (ParticleSystem.attractors s))%nat then
    Some (ParticleSystem.mk
            (ParticleSystem.particles s)
            (jitter (ParticleSystem.drawn s) (ParticleSystem.attractors s))
            (ParticleSystem.maxParticles s)
            (ParticleSystem.drawn s + 2 * length (ParticleSystem.attractors s)))
  else Some s.

End Canvas.

End Sketch.

(** ** Vocabulary of the properties *)

Definition dot (v w : Vector.t) : R :=
  Vector.x v * Vector.x w + Vector.y v * Vector.y w + Vector.z v * Vector.z w.

(** Aging as [update] does it to a particle at the position of [p]:
    regenerating when an attractor is in range, draining otherwise. *)
Definition aged (atts : list Vector.t) (p : Particle.t) : R :=
  if bool_decide (is_Some (ParticleSystem.attraction p atts))
  then P5.min 255 (Particle.lifespan p + Particle.decay p * 2)
  else Particle.lifespan p - Particle.decay p.

(** What the three neighbour loops average: the away-directions
    weighted by closeness, the neighbours' velocities, and the
    neighbours' positions. The sums stay as they are when no neighbour
    is counted. *)
Definition away (p : Particle.t) (ps : list Particle.t) (radius : R) : Vector.t :=
  let '(steer, count) :=
    fold_left (Particle.separate_body p radius) ps
              (Vector.createVector 0 0, 0%nat) in
  if decide (0 < count)%nat then Vector.div steer (INR count) else steer.

Definition heading (p : Particle.t) (ps : list Particle.t) (radius : R) : Vector.t :=
  let '(sum, count) :=
    fold_left (Particle.sum_body p radius Particle.velocity) ps
              (Vector.createVector 0 0, 0%nat) in
  if decide (0 < count)%nat then Vector.div sum (INR count) else sum.

Definition centre (p : Particle.t) (ps : list Particle.t) (radius : R) : Vector.t :=
  let '(sum, count) :=
    fold_left (Particle.sum_body p radius Particle.position) ps
              (Vector.createVector 0 0, 0%nat) in
  if decide (0 < count)%nat then Vector.div sum (INR count) else sum.

(** A point of the canvas. *)
Definition on_canvas (width height : R) (v : Vector.t) : Prop :=
  0 <= Vector.x v <= width /\ 0 <= Vector.y v <= height.

(** An attractor after the fallback mode has nudged it: at most one
    unit along each axis of the canvas. *)
Definition nudged (a a' : Vector.t) : Prop :=
  Rabs (Vector.x a' - Vector.x a) <= 1
  /\ Rabs (Vector.y a' - Vector.y a) <= 1
  /\ Vector.z a' = Vector.z a.

(** The mesh indices the loop of [addFeaturePoints] reads, in order. *)
Fixpoint visited (fuel i spacing : nat) (indices : list nat) : list nat :=
  match fuel with
  | O => []
  | S fuel' =>
      match indices !! i with
      | Some idx => idx :: visited fuel' (i + spacing) spacing indices
      | None => []
      end
  end.

(** The point a mesh index gives, when the mesh has it. *)
Definition keypoint_at (landmarks : list FaceTracker.landmark) (idx : nat)
    : option Vector.t :=
  (fun l => Vector.createVector (FaceTracker.lx l) (FaceTracker.ly l))
    <$> landmarks !! idx.

(** The indices [extractKeypoints] reads, feature after feature. *)
Definition feature (indices : list nat) (spacing : nat) : list nat :=
  visited (length indices) 0 spacing indices.

Definition feature_indices : list nat :=
  feature FaceTracker.leftEye 1
  ++ feature FaceTracker.rightEye 1
  ++ feature FaceTracker.lips 1
  ++ feature FaceTracker.nose 2
  ++ feature FaceTracker.leftEyebrow 1
  ++ feature FaceTracker.rightEyebrow 1
  ++ feature FaceTracker.faceContour 3.


(** The random generator serves numbers in [0, 1). *)
Definition unit_draws (rand : nat -> R) : Prop := forall k, 0 <= rand k < 1.

(** What the constructor fixes and every later step keeps: the two
    bounds, a decay in the range it is drawn from, and a lifespan that
    is not above its initial value. *)
Definition well_formed (p : Particle.t) : Prop :=
  Particle.maxSpeed p = 4
  /\ Particle.maxForce p = 0.1
  /\ 0.5 <= Particle.decay p <= 1.5
  /\ Particle.lifespan p <= 255.

Definition alive (p : Particle.t) : Prop := 0 < Particle.lifespan p.

Definition within_speed (p : Particle.t) : Prop :=
  Vector.mag (Particle.velocity p) <= Particle.maxSpeed p.

Definition unattracted (p : Particle.t) : Prop := Particle.isAttracted p = false.

(** ** Concrete scenes *)

Module Scene.

Definition grey : Particle.rgba := Particle.mkColor 200 200 200 180.

(** A generator that always serves one half. *)
Definition halves : nat -> R := fun _ => 0.5.

(** A particle in the middle of an 800 x 600 canvas on its last unit of
    lifespan. *)
Definition fading : Particle.t :=
  Particle.mk (Vector.createVector 400 300) (Vector.createVector 1 0)
              (Vector.createVector 0 0) 4 0.1 5 grey 1 1 false.

(** A full system of one particle, no attractors. *)
Definition lonely : ParticleSystem.t := ParticleSystem.mk [fading] [] 1 10.

(** A particle moving away from an attractor two units to its right. *)
Definition fleeing : Particle.t :=
  Particle.mk (Vector.createVector 100 100) (Vector.createVector (-1) 0)
              (Vector.createVector 0 0) 4 0.1 5 grey 255 1 false.

Definition landmark : Vector.t := Vector.createVector 102 100.

(** An attractor 300 units to the right of [fleeing]. *)
Definition far_landmark : Vector.t := Vector.createVector 400 100.



(** An attractor half a unit to the right of [fleeing]. *)
Definition touching : Vector.t := Vector.createVector 100.5 100.

(** The particle of the border scenario. *)
Definition drifting : Particle.t :=
  Particle.mk (Vector.createVector 5 300) (Vector.createVector (-3) 0)
              (Vector.createVector 0 0) 4 0.1 5 grey 255 1 false.

End Scene.

(** * Properties *)

(** ** Magnitudes of p5 vectors *)

Section VectorFacts.

Import Vector.

Lemma magSq_nonneg (v : t) : 0 <= magSq v.
Proof. unfold magSq. nra. Qed.

Lemma mag_nonneg (v : t) : 0 <= mag v.
Proof. apply sqrt_pos. Qed.

Lemma sqrt_sq (a : R) : 0 <= a -> sqrt (a * a) = a.
Proof. intros Ha. now apply sqrt_square. Qed.

Lemma mag_sq (v : t) : mag v * mag v = magSq v.
Proof. apply sqrt_sqrt, magSq_nonneg. Qed.

Lemma mag_createVector_0 : mag (createVector 0 0) = 0.
Proof.
  unfold mag, magSq, createVector; simpl.
  replace (0 * 0 + 0 * 0 + 0 * 0) with 0 by ring. apply sqrt_0.
Qed.

Lemma magSq_mult (v : t) (n : R) : magSq (mult v n) = magSq v * (n * n).
Proof. unfold magSq, mult; simpl. ring. Qed.

Lemma mag_mult (v : t) (n : R) : mag (mult v n) = mag v * Rabs n.
Proof.
  unfold mag. rewrite magSq_mult, sqrt_mult_alt by apply magSq_nonneg.
  f_equal. fold (Rsqr n). apply sqrt_Rsqr_abs.
Qed.

Lemma magSq_div (v : t) (n : R) : n <> 0 -> magSq (div v n) = magSq v / (n * n).
Proof.
  intros Hn. unfold div. rewrite decide_False by assumption.
  unfold magSq; simpl. now field.
Qed.

(** After [limit(max)] the magnitude is [max] when the vector was longer
    and is untouched otherwise. *)
Lemma mag_limit_long (v : t) (max : R) :
  0 <= max -> max * max < magSq v -> mag (limit v max) = max.
Proof.
  intros Hmax Hlong. unfold limit. rewrite decide_True by assumption.
  assert (Hpos : 0 < magSq v) by nra.
  assert (Hs : sqrt (magSq v) <> 0).
  { apply Rgt_not_eq, sqrt_lt_R0, Hpos. }
  unfold mag. rewrite magSq_mult, magSq_div by assumption.
  rewrite sqrt_sqrt by lra.
  replace (magSq v / magSq v * (max * max)) with (max * max) by (field; lra).
  now apply sqrt_sq.
Qed.

Lemma mag_limit (v : t) (max : R) : 0 <= max -> mag (limit v max) <= max.
Proof.
  intros Hmax. destruct (decide (max * max < magSq v)) as [Hlong|Hshort].
  - rewrite mag_limit_long by assumption. lra.
  - unfold limit. rewrite decide_False by assumption.
    unfold mag. rewrite <- (sqrt_sq max Hmax).
    apply sqrt_le_1_alt. lra.
Qed.

End VectorFacts.

(** ** The steering forces of a particle *)

Section ParticleFacts.

Import Particle.

Lemma mag_zero_force_le (m : R) : 0 <= m -> Vector.mag (Vector.createVector 0 0) <= m.
Proof. intros Hm. now rewrite mag_createVector_0. Qed.

(** [seek] clamps to [maxForce] and only then scales by [strength]. *)
Lemma mag_seek (p : t) (target : Vector.t) (strength : R) :
  0 <= maxForce p ->
  Vector.mag (seek p target strength) <= maxForce p * Rabs strength.
Proof.
  intros Hf. unfold seek. case_decide as Hclose.
  - rewrite mag_createVector_0.
    apply Rmult_le_pos; [assumption | apply Rabs_pos].
  - rewrite mag_mult.
    apply Rmult_le_compat_r; [apply Rabs_pos | now apply mag_limit].
Qed.

Lemma seek_close (p : t) (target : Vector.t) (strength : R) :
  Vector.dist (position p) target < 1 ->
  seek p target strength = Vector.createVector 0 0.
Proof. intros Hclose. unfold seek. now rewrite decide_True. Qed.

Lemma mag_separate (p : t) (ps : list t) (desiredSeparation : R) :
  0 <= maxForce p ->
  Vector.mag (separate p ps desiredSeparation) <= maxForce p.
Proof.
  intros Hf. unfold separate.
  destruct (fold_left _ _ _) as [steer count].
  case_decide as Hmag.
  - now apply mag_limit.
  - pose proof (mag_nonneg (if decide (0 < count)%nat
                            then Vector.div steer (INR count) else steer)).
    lra.
Qed.

Lemma mag_align (p : t) (ps : list t) (neighborDistance : R) :
  0 <= maxForce p ->
  Vector.mag (align p ps neighborDistance) <= maxForce p.
Proof.
  intros Hf. unfold align.
  destruct (fold_left _ _ _) as [sum count].
  case_decide; [now apply mag_limit | now apply mag_zero_force_le].
Qed.

Lemma mag_cohesion (p : t) (ps : list t) (neighborDistance : R) :
  0 <= maxForce p ->
  Vector.mag (cohesion p ps neighborDistance) <= maxForce p * 0.5.
Proof.
  intros Hf. unfold cohesion.
  destruct (fold_left _ _ _) as [sum count].
  case_decide.
  - etransitivity; [now apply mag_seek|].
    rewrite Rabs_pos_eq by lra. lra.
  - rewrite mag_createVector_0. lra.
Qed.

Lemma mag_borders (p : t) (width height : R) :
  0 <= maxForce p ->
  Vector.mag (borders p width height) <= maxForce p.
Proof.
  intros Hf. unfold borders.
  repeat case_decide; simpl;
    first [now apply mag_limit | now apply mag_zero_force_le].
Qed.

End ParticleFacts.

(** ** The scan for the closest attractor *)

Section ClosestFacts.

Import ParticleSystem.

Variable pos : Vector.t.

Lemma closest_body_Some (best : R * Vector.t) (a : Vector.t) :
  exists best', closest_body pos (Some best) a = Some best'.
Proof.
  unfold closest_body. destruct best as [d0 a0].
  destruct (_ && _); eauto.
Qed.

Lemma closest_fold_Some (atts : list Vector.t) (best : R * Vector.t) :
  exists best', fold_left (closest_body pos) atts (Some best) = Some best'.
Proof.
  revert best. induction atts as [|a atts IH]; intros best; simpl; [eauto|].
  destruct (closest_body_Some best a) as [best' ->]. apply IH.
Qed.

(** What the scan returns is an attractor of the list, with its own
    distance, which is below 150 (unless it is the value the scan
    started from). *)
Lemma closest_fold_sound (atts : list Vector.t) (best : option (R * Vector.t))
    (d : R) (a : Vector.t) :
  fold_left (closest_body pos) atts best = Some (d, a) ->
  best = Some (d, a) \/ (a ∈ atts /\ d = Vector.dist pos a /\ d < 150).
Proof.
  revert best. induction atts as [|a0 atts IH]; intros best; simpl.
  - now left.
  - intros Hfold. destruct (IH _ Hfold) as [Hbody | (Hin & Hd & Hr)].
    + unfold closest_body in Hbody.
      destruct (_ && bool_decide (Vector.dist pos a0 < 150)) eqn:Htest.
      * right. injection Hbody as <- <-.
        apply andb_prop in Htest as [_ Hr%bool_decide_eq_true].
        split; [left | easy].
      * now left.
    + right. split; [now right | easy].
Qed.

(** The scan never ends above an in-range distance it has seen. *)
Lemma closest_fold_min (atts : list Vector.t) (best : option (R * Vector.t))
    (bound : R) :
  bound < 150 ->
  (match best with Some (d0, _) => d0 <= bound | None => False end
   \/ exists a, a ∈ atts /\ Vector.dist pos a <= bound) ->
  exists d a, fold_left (closest_body pos) atts best = Some (d, a) /\ d <= bound.
Proof.
  intros Hb. revert best. induction atts as [|a0 atts IH]; intros best Hseen; simpl.
  - destruct Hseen as [Hbest | (a & Hin & _)].
    + destruct best as [[d0 a0]|]; [eauto | contradiction].
    + now apply elem_of_nil in Hin.
  - apply IH. unfold closest_body.
    destruct Hseen as [Hbest | (a & Hin & Hd)].
    + destruct best as [[d0 b0]|]; [|contradiction].
      left. destruct (_ && _) eqn:Htest; [|assumption].
      apply andb_prop in Htest as [Hlt%bool_decide_eq_true _]. lra.
    + apply elem_of_cons in Hin as [-> | Hin]; [|right; eauto].
      left. destruct best as [[d0 b0]|]; simpl.
      * destruct (bool_decide (Vector.dist pos a0 < d0)) eqn:Hlt; simpl.
        -- rewrite bool_decide_eq_true_2 by lra. assumption.
        -- apply bool_decide_eq_false in Hlt. lra.
      * rewrite bool_decide_eq_true_2 by lra. assumption.
Qed.

Lemma closest_single (P : Vector.t) :
  closest pos [P] =
  if bool_decide (Vector.dist pos P < 150) then Some (Vector.dist pos P, P)
  else None.
Proof. reflexivity. Qed.

End ClosestFacts.

(** ** One particle inside the pass of the system *)

Section ProcessFacts.

Import ParticleSystem.

Variables width height : R.

(** The flocking forces only touch the accumulator. *)
Lemma flock_frame (p : Particle.t) (ps : list Particle.t) :
  flock width height p ps =
  Particle.with_acceleration p (Particle.acceleration (flock width height p ps)).
Proof. reflexivity. Qed.

(** The attraction step either finds nothing and only resets the flag,
    or applies exactly the force [attraction] computed and raises the
    flag. *)
Lemma attract_None (q : Particle.t) (atts : list Vector.t) :
  attraction q atts = None ->
  attract q atts = Particle.with_isAttracted q false.
Proof.
  intros Hnone. unfold attract.
  change (attraction (Particle.with_isAttracted q false) atts)
    with (attraction q atts).
  now rewrite Hnone.
Qed.

Lemma attract_Some (q : Particle.t) (atts : list Vector.t) (force : Vector.t) :
  attraction q atts = Some force ->
  attract q atts =
  Particle.with_isAttracted
    (Particle.applyForce (Particle.with_isAttracted q false) force) true.
Proof.
  intros Hsome. unfold attract.
  change (attraction (Particle.with_isAttracted q false) atts)
    with (attraction q atts).
  now rewrite Hsome.
Qed.

Lemma attraction_nil (q : Particle.t) : attraction q [] = None.
Proof. reflexivity. Qed.

Lemma attract_flag (q : Particle.t) (atts : list Vector.t) :
  Particle.isAttracted (attract q atts) =
  bool_decide (is_Some (attraction q atts)).
Proof.
  destruct (attraction q atts) as [force|] eqn:Hatt.
  - rewrite (attract_Some _ _ _ Hatt). symmetry. now apply bool_decide_eq_true_2.
  - rewrite (attract_None _ _ Hatt). symmetry. apply bool_decide_eq_false_2.
    now intros [? ?].
Qed.

Lemma attract_lifespan (q : Particle.t) (atts : list Vector.t) :
  Particle.lifespan (attract q atts) = Particle.lifespan q
  /\ Particle.decay (attract q atts) = Particle.decay q
  /\ Particle.maxSpeed (attract q atts) = Particle.maxSpeed q
  /\ Particle.maxForce (attract q atts) = Particle.maxForce q.
Proof.
  destruct (attraction q atts) as [force|] eqn:Hatt.
  - now rewrite (attract_Some _ _ _ Hatt).
  - now rewrite (attract_None _ _ Hatt).
Qed.

Lemma update_isAttracted (p : Particle.t) :
  Particle.isAttracted (Particle.update p) = Particle.isAttracted p.
Proof. reflexivity. Qed.

Lemma update_lifespan_unattracted (p : Particle.t) :
  Particle.isAttracted p = false ->
  Particle.lifespan (Particle.update p) = Particle.lifespan p - Particle.decay p.
Proof. intros Hflag. unfold Particle.update; simpl. now rewrite Hflag. Qed.

Lemma update_lifespan_attracted (p : Particle.t) :
  Particle.isAttracted p = true ->
  Particle.lifespan (Particle.update p) =
  P5.min 255 (Particle.lifespan p + Particle.decay p * 2).
Proof. intros Hflag. unfold Particle.update; simpl. now rewrite Hflag. Qed.

Lemma process_isAttracted (p : Particle.t) (ps : list Particle.t)
    (atts : list Vector.t) :
  Particle.isAttracted (process width height p ps atts) =
  bool_decide (is_Some (attraction p atts)).
Proof. unfold process. now rewrite update_isAttracted, attract_flag. Qed.

Lemma process_lifespan (p : Particle.t) (ps : list Particle.t)
    (atts : list Vector.t) :
  Particle.lifespan (process width height p ps atts) =
  if Particle.isAttracted (process width height p ps atts)
  then P5.min 255 (Particle.lifespan p + Particle.decay p * 2)
  else Particle.lifespan p - Particle.decay p.
Proof.
  unfold process. rewrite update_isAttracted.
  destruct (attract_lifespan (flock width height p ps) atts) as (Hl & Hd & _).
  destruct (Particle.isAttracted (attract _ atts)) eqn:Hflag.
  - rewrite update_lifespan_attracted, Hl, Hd by assumption. reflexivity.
  - rewrite update_lifespan_unattracted, Hl, Hd by assumption. reflexivity.
Qed.

Lemma process_constants (p : Particle.t) (ps : list Particle.t)
    (atts : list Vector.t) :
  Particle.maxSpeed (process width height p ps atts) = Particle.maxSpeed p
  /\ Particle.maxForce (process width height p ps atts) = Particle.maxForce p
  /\ Particle.decay (process width height p ps atts) = Particle.decay p.
Proof.
  unfold process.
  destruct (attract_lifespan (flock width height p ps) atts) as (_ & Hd & Hs & Hf).
  unfold Particle.update; simpl. now rewrite Hd, Hs, Hf.
Qed.

(** The loop body in one piece: the particle at [i] is replaced by its
    processed self, or dropped when that is dead. *)
Lemma body_spec (i : nat) (s : t) (p : Particle.t) :
  particles s !! i = Some p ->
  let p' := process width height p (particles s) (attractors s) in
  body width height i s =
  Some (with_particles s
          (take i (particles s)
           ++ (if Particle.isDead p' then [] else [p'])
           ++ drop (S i) (particles s))).
Proof.
  intros Hp p'. unfold body. rewrite Hp; simpl. fold p'.
  pose proof (lookup_lt_Some _ _ _ Hp) as Hi.
  do 2 f_equal. destruct (Particle.isDead p').
  - rewrite delete_take_drop, take_insert_ge, drop_insert_lt by lia.
    reflexivity.
  - now apply insert_take_drop.
Qed.

End ProcessFacts.

(** ** The replenishing loop and the pass over the population *)

Section LoopFacts.

Import ParticleSystem.

Variables width height : R.
Variable rand : nat -> R.

Lemma addParticle_frame (s : t) :
  attractors (addParticle width height rand s) = attractors s
  /\ maxParticles (addParticle width height rand s) = maxParticles s
  /\ length (particles (addParticle width height rand s)) = S (length (particles s)).
Proof.
  unfold addParticle; simpl. rewrite length_app; simpl.
  repeat split; lia.
Qed.

Lemma fill_frame (fuel : nat) (s : t) :
  attractors (fill width height rand fuel s) = attractors s
  /\ maxParticles (fill width height rand fuel s) = maxParticles s.
Proof.
  revert s. induction fuel as [|fuel IH]; intros s; simpl; [easy|].
  case_decide; [|easy].
  destruct (IH (addParticle width height rand s)) as [-> ->].
  destruct (addParticle_frame s) as (-> & -> & _). easy.
Qed.

Lemma fill_length (fuel : nat) (s : t) :
  length (particles (fill width height rand fuel s)) =
  Nat.max (length (particles s))
          (Nat.min (length (particles s) + fuel) (maxParticles s)).
Proof.
  revert s. induction fuel as [|fuel IH]; intros s; simpl; [lia|].
  case_decide as Hlt; [|lia].
  rewrite IH. destruct (addParticle_frame s) as (_ & -> & ->). lia.
Qed.

(** Whatever holds of the old population and of every freshly
    constructed particle holds of the replenished population. *)
Lemma fill_Forall (I : Particle.t -> Prop) (fuel : nat) (s : t) :
  (forall px py n, I (Particle.new px py (fun k => rand (n + k)%nat))) ->
  Forall I (particles s) ->
  Forall I (particles (fill width height rand fuel s)).
Proof.
  intros Hnew. revert s. induction fuel as [|fuel IH]; intros s Hs; simpl; [easy|].
  case_decide; [|easy].
  apply IH. unfold addParticle; simpl.
  apply Forall_app_2; [assumption|].
  apply Forall_singleton, Hnew.
Qed.

(** The [while] loop has really exited: the fuel [replenish] gives it
    is enough for the guard to become false. *)
Lemma replenish_length (s : t) :
  length (particles (replenish width height rand s)) =
  Nat.max (length (particles s)) (maxParticles s).
Proof. unfold replenish. rewrite fill_length. lia. Qed.

Lemma replenish_exits (s : t) :
  let s' := replenish width height rand s in
  ~ (length (particles s') < maxParticles s')%nat.
Proof.
  simpl. rewrite replenish_length.
  unfold replenish. destruct (fill_frame (maxParticles s - length (particles s)) s) as [_ ->].
  lia.
Qed.

(** The pass from index [n - 1] down to 0. [I] is kept by processing;
    [Q] is what processing establishes of a survivor. Afterwards the
    whole population satisfies both, and its size has dropped by the
    number of dead particles met. *)
Lemma loop_spec (I Q : Particle.t -> Prop) (atts : list Vector.t) :
  (forall p ps, I p -> I (process width height p ps atts)) ->
  (forall p ps, I p ->
     Particle.isDead (process width height p ps atts) = false ->
     Q (process width height p ps atts)) ->
  forall (n : nat) (s : t),
    attractors s = atts ->
    (n <= length (particles s))%nat ->
    Forall I (particles s) ->
    Forall Q (drop n (particles s)) ->
    exists s',
      loop width height n s = Some s'
      /\ Forall I (particles s')
      /\ Forall Q (particles s')
      /\ attractors s' = atts
      /\ maxParticles s' = maxParticles s
      /\ (length (particles s') + died width height n s)%nat = length (particles s).
Proof.
  intros HI HQ. induction n as [|i IH]; intros s Hatts Hn HIs HQs.
  - exists s. simpl. rewrite drop_0 in HQs. repeat split; first [easy | lia].
  - destruct (lookup_lt_is_Some_2 (particles s) i) as [p Hp]; [lia|].
    pose proof (body_spec width height i s p Hp) as Hbody. simpl in Hbody.
    rewrite Hatts in Hbody.
    set (p' := process width height p (particles s) atts) in *.
    set (mid := if Particle.isDead p' then [] else [p']) in *.
    set (s1 := with_particles s (take i (particles s) ++ mid ++ drop (S i) (particles s))) in *.
    assert (Hpin : I p).
    { rewrite Forall_lookup in HIs. eauto. }
    assert (HImid : Forall I mid).
    { subst mid. destruct (Particle.isDead p'); [constructor|].
      apply Forall_singleton, HI, Hpin. }
    assert (HQmid : Forall Q mid).
    { subst mid. destruct (Particle.isDead p') eqn:Hdead; [constructor|].
      apply Forall_singleton, HQ; assumption. }
    assert (Htake : length (take i (particles s)) = i) by (apply length_take_le; lia).
    destruct (IH s1) as (s' & Hloop & HI' & HQ' & Hatts' & Hmax' & Hlen').
    + assumption.
    + subst s1; simpl. rewrite length_app. lia.
    + subst s1; simpl. repeat apply Forall_app_2;
        [now apply Forall_take | assumption | now apply Forall_drop].
    + subst s1; simpl. rewrite drop_app_length' by easy.
      now apply Forall_app_2.
    + exists s'. simpl. rewrite Hatts, Hp, Hbody; simpl.
      fold p'. repeat split; try assumption.
      assert (Hlen1 : (length (particles s1) + (if Particle.isDead p' then 1 else 0))%nat
                      = length (particles s)).
      { pose proof (f_equal length (take_drop_middle _ _ _ Hp)) as Hsplit.
        rewrite length_app in Hsplit; simpl in Hsplit.
        subst s1 mid; simpl. rewrite !length_app.
        destruct (Particle.isDead p'); simpl; lia. }
      lia.
Qed.

End LoopFacts.

(** ** A completed [update] *)

Section UpdateFacts.

Import ParticleSystem.

Variables width height : R.
Variable rand : nat -> R.

(** [update] never throws. After it, an invariant [I] of the particles
    still holds, every survivor satisfies what processing establishes,
    and the population is the replenished one minus the dead. *)
Lemma update_spec (I Q : Particle.t -> Prop) (s : t) :
  (forall px py n, I (Particle.new px py (fun k => rand (n + k)%nat))) ->
  (forall p ps, I p -> I (process width height p ps (attractors s))) ->
  (forall p ps, I p ->
     Particle.isDead (process width height p ps (attractors s)) = false ->
     Q (process width height p ps (attractors s))) ->
  Forall I (particles s) ->
  exists s',
    update width height rand s = Some s'
    /\ Forall I (particles s')
    /\ Forall Q (particles s')
    /\ attractors s' = attractors s
    /\ maxParticles s' = maxParticles s
    /\ (length (particles s')
        + died width height (length (particles (replenish width height rand s)))
               (replenish width height rand s))%nat
       = Nat.max (length (particles s)) (maxParticles s).
Proof.
  intros Hnew HI HQ Hs. unfold update.
  rewrite <- replenish_length with (width := width) (height := height) (rand := rand).
  set (s1 := replenish width height rand s).
  assert (Hframe : attractors s1 = attractors s /\ maxParticles s1 = maxParticles s)
    by apply fill_frame.
  destruct Hframe as [Hatts Hmax].
  destruct (loop_spec width height I Q (attractors s) HI HQ
              (length (particles s1)) s1)
    as (s' & Hloop & HI' & HQ' & Hatts' & Hmax' & Hlen); try easy.
  - now apply fill_Forall.
  - rewrite drop_all. constructor.
  - exists s'. repeat split; try easy. congruence.
Qed.

Lemma isDead_false_alive (p : Particle.t) : Particle.isDead p = false -> alive p.
Proof.
  unfold Particle.isDead, alive. intros Hdead%bool_decide_eq_false. lra.
Qed.

Lemma update_within_speed (p : Particle.t) :
  0 <= Particle.maxSpeed p -> within_speed (Particle.update p).
Proof. intros Hs. unfold within_speed, Particle.update; simpl. now apply mag_limit. Qed.

End UpdateFacts.

(** ** What holds of every reachable system *)

Section Reachable.

Import ParticleSystem.

Variables width height : R.
Variable rand : nat -> R.

(** A property of freshly constructed particles that processing keeps
    holds of every particle of every reachable system. *)
Lemma reachable_Forall (I : Particle.t -> Prop) (s : t) :
  (forall px py n, I (Particle.new px py (fun k => rand (n + k)%nat))) ->
  (forall p ps atts, I p -> I (process width height p ps atts)) ->
  reachable width height rand s -> Forall I (particles s).
Proof.
  intros Hnew HI. induction 1 as [n seed | s l _ IH | s s' _ IH Hup].
  - unfold new. generalize (Forall_nil_2 I).
    change [] with (particles (mk [] [] n seed)) at 1.
    generalize (mk [] [] n seed). intros s0 Hs0.
    induction n as [|n IHn]; [assumption|].
    rewrite Nat.iter_succ. unfold addParticle at 1; simpl.
    apply Forall_app_2; [assumption|]. apply Forall_singleton, Hnew.
  - exact IH.
  - destruct (update_spec width height rand I (fun _ => True) s)
      as (s2 & Hup2 & HI2 & _); [exact Hnew | auto | auto | exact IH |].
    congruence.
Qed.

Lemma random_range (u lo hi : R) :
  0 <= u < 1 -> lo <= hi -> lo <= P5.random u lo hi <= hi.
Proof.
  intros Hu Hlohi. unfold P5.random. rewrite decide_False by lra. nra.
Qed.

Lemma new_well_formed (px py : R) (n : nat) :
  unit_draws rand ->
  well_formed (Particle.new px py (fun k => rand (n + k)%nat)).
Proof.
  intros rand_unit. unfold well_formed; simpl. repeat split; try lra.
  - apply random_range; [apply rand_unit | lra].
  - apply random_range; [apply rand_unit | lra].
Qed.

Lemma process_well_formed (p : Particle.t) (ps : list Particle.t)
    (atts : list Vector.t) :
  well_formed p -> well_formed (process width height p ps atts).
Proof.
  intros (Hs & Hf & Hd & Hl).
  destruct (process_constants width height p ps atts) as (Hs' & Hf' & Hd').
  unfold well_formed. rewrite Hs', Hf', Hd', process_lifespan.
  repeat split; try easy.
  destruct (Particle.isAttracted _); [apply Rmin_l | lra].
Qed.

Lemma reachable_well_formed (s : t) :
  unit_draws rand ->
  reachable width height rand s -> Forall well_formed (particles s).
Proof.
  intros rand_unit. apply reachable_Forall.
  - intros px py n. now apply new_well_formed.
  - intros p ps atts. apply process_well_formed.
Qed.

Lemma reachable_maxSpeed (s : t) :
  reachable width height rand s ->
  Forall (fun p => Particle.maxSpeed p = 4) (particles s).
Proof.
  apply reachable_Forall; [reflexivity|].
  intros p ps atts Hp.
  now destruct (process_constants width height p ps atts) as (-> & _).
Qed.

End Reachable.

(** * The claims *)

(** C1, as the code has it. [update] first fills the population up to
    [maxParticles] and then removes, without replacing it, every
    particle that is dead after its own [update]: a completed call
    leaves [max(previous length, maxParticles)] particles minus the
    number that died in the tick, and never throws. *)
Theorem update_population (width height : R) (rand : nat -> R)
    (s : ParticleSystem.t) :
  let filled := ParticleSystem.replenish width height rand s in
  let target := Nat.max (length (ParticleSystem.particles s))
                        (ParticleSystem.maxParticles s) in
  exists s',
    ParticleSystem.update width height rand s = Some s'
    /\ ParticleSystem.maxParticles s' = ParticleSystem.maxParticles s
    /\ length (ParticleSystem.particles filled) = target
    /\ (length (ParticleSystem.particles s')
        + ParticleSystem.died width height
            (length (ParticleSystem.particles filled)) filled)%nat
       = target.
Proof.
  simpl.
  destruct (update_spec width height rand (fun _ => True) (fun _ => True) s)
    as (s' & Hup & _ & _ & _ & Hmax & Hlen); try easy.
  { now apply Forall_true. }
  exists s'. repeat split; try easy. apply replenish_length.
Qed.

(** C1 as stated fails: a full population of one particle on its last
    unit of lifespan is empty after [update]. *)
Lemma update_population_shrinks :
  ParticleSystem.update 800 600 Scene.halves Scene.lonely
  = Some (ParticleSystem.mk [] [] 1 10)
  /\ length (ParticleSystem.particles (ParticleSystem.mk [] [] 1 10))
     <> ParticleSystem.maxParticles (ParticleSystem.mk [] [] 1 10).
Proof.
  split; [|simpl; lia].
  change (ParticleSystem.body 800 600 0 Scene.lonely
          ≫= ParticleSystem.loop 800 600 0 = Some (ParticleSystem.mk [] [] 1 10)).
  rewrite (body_spec 800 600 0 Scene.lonely Scene.fading eq_refl).
  change (ParticleSystem.particles Scene.lonely) with [Scene.fading].
  change (ParticleSystem.attractors Scene.lonely) with (@nil Vector.t).
  assert (Hdead : Particle.isDead
            (ParticleSystem.process 800 600 Scene.fading [Scene.fading] []) = true).
  { apply bool_decide_eq_true_2.
    rewrite process_lifespan, process_isAttracted; simpl. lra. }
  rewrite Hdead. reflexivity.
Qed.

(** The same from the constructor on: a system of one particle whose
    decay is drawn as 1 and that never meets an attractor is empty
    after its 255th frame. *)
Lemma update_lone_unattracted (width height : R) (rand : nat -> R)
    (s : ParticleSystem.t) (p : Particle.t) :
  ParticleSystem.particles s = [p] ->
  ParticleSystem.attractors s = [] ->
  ParticleSystem.maxParticles s = 1%nat ->
  let p' := ParticleSystem.process width height p [p] [] in
  ParticleSystem.update width height rand s
  = Some (ParticleSystem.with_particles s (if Particle.isDead p' then [] else [p']))
  /\ Particle.lifespan p' = Particle.lifespan p - Particle.decay p
  /\ Particle.decay p' = Particle.decay p.
Proof.
  intros Hps Hatts Hmax p'. split; [|split].
  - unfold ParticleSystem.update, ParticleSystem.replenish.
    rewrite Hps, Hmax. cbn [length Nat.sub ParticleSystem.fill].
    rewrite Hps. cbn [length ParticleSystem.loop].
    rewrite (body_spec width height 0 s p) by now rewrite Hps.
    rewrite Hps, Hatts. fold p'. cbn [take drop mbind option_bind ParticleSystem.loop].
    now destruct (Particle.isDead p').
  - subst p'. rewrite process_lifespan, process_isAttracted. reflexivity.
  - exact (proj2 (proj2 (process_constants width height p [p] []))).
Qed.

Lemma ticks_lone_unattracted (width height : R) (rand : nat -> R) (n : nat) :
  forall (s : ParticleSystem.t) (p : Particle.t),
    ParticleSystem.particles s = [p] ->
    ParticleSystem.attractors s = [] ->
    ParticleSystem.maxParticles s = 1%nat ->
    Particle.decay p = 1 ->
    INR n < Particle.lifespan p ->
    exists s' p',
      ParticleSystem.ticks width height rand n s = Some s'
      /\ ParticleSystem.particles s' = [p']
      /\ ParticleSystem.attractors s' = []
      /\ ParticleSystem.maxParticles s' = 1%nat
      /\ Particle.decay p' = 1
      /\ Particle.lifespan p' = Particle.lifespan p - INR n.
Proof.
  induction n as [|n IH]; intros s p Hps Hatts Hmax Hdecay Hlife.
  - exists s, p. simpl. repeat split; try easy. lra.
  - rewrite S_INR in Hlife.
    destruct (update_lone_unattracted width height rand s p Hps Hatts Hmax)
      as (Hup & Hl & Hd).
    set (p1 := ParticleSystem.process width height p [p] []) in *.
    assert (Halive : Particle.isDead p1 = false).
    { apply bool_decide_eq_false_2. pose proof (pos_INR n). lra. }
    rewrite Halive in Hup.
    destruct (IH (ParticleSystem.with_particles s [p1]) p1)
      as (s' & p' & Hticks & Hps' & Hatts' & Hmax' & Hd' & Hl');
      [easy | easy | easy | lra | pose proof (pos_INR n); lra |].
    exists s', p'. cbn [ParticleSystem.ticks]. rewrite Hup.
    split; [exact Hticks|]. repeat split; try easy.
    rewrite S_INR. lra.
Qed.

Lemma population_empties_from_new :
  exists s1 s2,
    ParticleSystem.ticks 800 600 Scene.halves 254
      (ParticleSystem.new 800 600 Scene.halves 1 0) = Some s1
    /\ ParticleSystem.update 800 600 Scene.halves s1 = Some s2
    /\ ParticleSystem.maxParticles s2 = 1%nat
    /\ ParticleSystem.particles s2 = [].
Proof.
  set (p0 := Particle.new (P5.random1 (Scene.halves 0%nat) 800)
                          (P5.random1 (Scene.halves 1%nat) 600)
                          (fun k => Scene.halves (2 + k)%nat)).
  assert (Hdecay : Particle.decay p0 = 1).
  { simpl. unfold P5.random, Scene.halves. rewrite decide_False by lra. lra. }
  destruct (ticks_lone_unattracted 800 600 Scene.halves 254
              (ParticleSystem.new 800 600 Scene.halves 1 0) p0)
    as (s1 & p1 & Hticks & Hps & Hatts & Hmax & Hd & Hl);
    [reflexivity | reflexivity | reflexivity | exact Hdecay | |].
  { change (Particle.lifespan p0) with 255. rewrite INR_IZR_INZ.
    change (Z.of_nat 254) with 254%Z. lra. }
  destruct (update_lone_unattracted 800 600 Scene.halves s1 p1 Hps Hatts Hmax)
    as (Hup & Hl1 & _).
  assert (Hdead : Particle.isDead
            (ParticleSystem.process 800 600 p1 [p1] []) = true).
  { apply bool_decide_eq_true_2. rewrite Hl1, Hl, Hd.
    change (Particle.lifespan p0) with 255. rewrite INR_IZR_INZ.
    change (Z.of_nat 254) with 254%Z. lra. }
  rewrite Hdead in Hup.
  exists s1, (ParticleSystem.with_particles s1 []).
  repeat split; assumption.
Qed.

(** The strength the attraction step derives from an in-range distance
    lies in (0.5, 2.5]. *)
Lemma attraction_strength_range (d : R) :
  0 <= d < 150 -> 0.5 < P5.map d 0 150 2.5 0.5 <= 2.5.
Proof. intros Hd. unfold P5.map. lra. Qed.

Lemma attraction_inv (p : Particle.t) (atts : list Vector.t) (force : Vector.t) :
  ParticleSystem.attraction p atts = Some force ->
  exists a, a ∈ atts
    /\ Vector.dist (Particle.position p) a < 150
    /\ force = Particle.seek p a
                 (P5.map (Vector.dist (Particle.position p) a) 0 150 2.5 0.5).
Proof.
  unfold ParticleSystem.attraction. case_decide; [|discriminate].
  destruct (ParticleSystem.closest _ atts) as [[d a]|] eqn:Hclosest; [|discriminate].
  intros [= <-].
  apply closest_fold_sound in Hclosest as [? | (Hin & -> & Hr)]; [discriminate|].
  eauto.
Qed.

(** C2, as the code has it. [separate], [align], [cohesion] and
    [borders] return a vector of magnitude at most [maxForce]. [seek]
    clamps to [maxForce] before it scales by [strength], so its result
    is bounded by [maxForce * |strength|]: at most [maxForce] for
    [strength] up to 1 (cohesion uses 0.5), and at most
    [2.5 * maxForce] when the attraction step calls it. *)
Theorem steering_force_bounds (p : Particle.t) (ps : list Particle.t)
    (atts : list Vector.t) (target : Vector.t)
    (strength radius width height : R) :
  0 <= Particle.maxForce p ->
  Vector.mag (Particle.seek p target strength)
    <= Particle.maxForce p * Rabs strength
  /\ Vector.mag (Particle.separate p ps radius) <= Particle.maxForce p
  /\ Vector.mag (Particle.align p ps radius) <= Particle.maxForce p
  /\ Vector.mag (Particle.cohesion p ps radius) <= Particle.maxForce p
  /\ Vector.mag (Particle.borders p width height) <= Particle.maxForce p
  /\ (forall force, ParticleSystem.attraction p atts = Some force ->
        Vector.mag force <= Particle.maxForce p * 2.5).
Proof.
  intros Hf. repeat split.
  - now apply mag_seek.
  - now apply mag_separate.
  - now apply mag_align.
  - pose proof (mag_cohesion p ps radius Hf). lra.
  - now apply mag_borders.
  - intros force (a & _ & Hr & ->)%attraction_inv.
    pose proof (mag_nonneg (Vector.sub a (Particle.position p))) as Hd.
    fold (Vector.dist (Particle.position p) a) in Hd.
    pose proof (attraction_strength_range _ (conj Hd Hr)) as Hk.
    etransitivity; [now apply mag_seek|].
    rewrite Rabs_pos_eq by lra. nra.
Qed.

Lemma steering_force_bounds_witness :
  0 <= Particle.maxForce Scene.fleeing
  /\ Vector.mag (Particle.separate Scene.fleeing [Scene.fleeing; Scene.drifting] 25)
     <= Particle.maxForce Scene.fleeing.
Proof.
  assert (Hf : 0 <= Particle.maxForce Scene.fleeing) by (simpl; lra).
  split; [exact Hf|].
  exact (proj1 (proj2 (steering_force_bounds Scene.fleeing
           [Scene.fleeing; Scene.drifting] [Scene.landmark] Scene.landmark
           1 25 800 600 Hf))).
Defined.

Lemma mag_along_x (a : R) : 0 <= a -> Vector.mag (Vector.mk a 0 0) = a.
Proof.
  intros Ha. unfold Vector.mag, Vector.magSq; simpl.
  replace (a * a + 0 * 0 + 0 * 0) with (a * a) by ring. now apply sqrt_sq.
Qed.

Lemma vector_eq (v : Vector.t) (a b c : R) :
  Vector.x v = a -> Vector.y v = b -> Vector.z v = c -> v = Vector.mk a b c.
Proof. destruct v; simpl. now intros -> -> ->. Qed.

Lemma normalize_along_x (a : R) :
  0 < a -> Vector.normalize (Vector.mk a 0 0) = Vector.mk 1 0 0.
Proof.
  intros Ha. unfold Vector.normalize. rewrite mag_along_x by lra.
  rewrite decide_False by lra.
  apply vector_eq; simpl; field; lra.
Qed.

Lemma limit_along_x (a max : R) :
  0 < max < a -> Vector.limit (Vector.mk a 0 0) max = Vector.mk max 0 0.
Proof.
  intros Ha. unfold Vector.limit.
  change (Vector.magSq (Vector.mk a 0 0)) with (a * a + 0 * 0 + 0 * 0).
  replace (a * a + 0 * 0 + 0 * 0) with (a * a) by ring.
  rewrite decide_True by nra. rewrite sqrt_sq by lra.
  unfold Vector.div. rewrite decide_False by lra.
  apply vector_eq; simpl; field; lra.
Qed.

(** C2 as stated fails: two units from an attractor, the force the
    attraction step obtains from [seek] is about 0.247, well above
    [maxForce = 0.1]. *)
Lemma attraction_force_exceeds_maxForce :
  ParticleSystem.attraction Scene.fleeing [Scene.landmark]
  = Some (Vector.mk (0.1 * P5.map 2 0 150 2.5 0.5) 0 0)
  /\ Particle.maxForce Scene.fleeing
     < Vector.mag (Vector.mk (0.1 * P5.map 2 0 150 2.5 0.5) 0 0).
Proof.
  assert (Hsub : Vector.sub Scene.landmark (Particle.position Scene.fleeing)
                 = Vector.mk 2 0 0).
  { apply vector_eq; simpl; lra. }
  assert (Hdist : Vector.dist (Particle.position Scene.fleeing) Scene.landmark = 2).
  { unfold Vector.dist. rewrite Hsub. apply mag_along_x. lra. }
  split.
  - unfold ParticleSystem.attraction. rewrite decide_True by (simpl; lia).
    rewrite closest_single, Hdist, bool_decide_eq_true_2 by lra.
    f_equal. unfold Particle.seek. rewrite Hsub, mag_along_x by lra.
    rewrite decide_False by lra. rewrite normalize_along_x by lra.
    replace (Vector.sub (Vector.mult (Vector.mk 1 0 0)
                           (Particle.maxSpeed Scene.fleeing))
                        (Particle.velocity Scene.fleeing))
      with (Vector.mk 5 0 0) by (symmetry; apply vector_eq; simpl; lra).
    rewrite limit_along_x by (simpl; lra).
    apply vector_eq; simpl; lra.
  - assert (Hk : 1 < P5.map 2 0 150 2.5 0.5) by (unfold P5.map; lra).
    rewrite mag_along_x by lra. simpl. lra.
Qed.

(** C3. [Particle.update] leaves the velocity within [maxSpeed]; and
    so, after every completed [update] of a reachable system, every
    particle of the population moves at most at [maxSpeed]. *)
Theorem velocity_within_maxSpeed :
  (forall p : Particle.t,
     0 <= Particle.maxSpeed p ->
     Vector.mag (Particle.velocity (Particle.update p))
       <= Particle.maxSpeed (Particle.update p))
  /\ (forall (width height : R) (rand : nat -> R) (s s' : ParticleSystem.t),
        ParticleSystem.reachable width height rand s ->
        ParticleSystem.update width height rand s = Some s' ->
        Forall within_speed (ParticleSystem.particles s')).
Proof.
  split.
  - intros p Hs. now apply update_within_speed.
  - intros width height rand s s' Hreach Hup.
    destruct (update_spec width height rand
                (fun p => Particle.maxSpeed p = 4) within_speed s)
      as (s2 & Hup2 & _ & Hspeed & _).
    + reflexivity.
    + intros p ps Hp.
      now destruct (process_constants width height p ps (ParticleSystem.attractors s))
        as (-> & _).
    + intros p ps Hp _. apply update_within_speed.
      destruct (attract_lifespan (ParticleSystem.flock width height p ps)
                  (ParticleSystem.attractors s)) as (_ & _ & -> & _).
      simpl. rewrite Hp. lra.
    + now apply (reachable_maxSpeed width height rand).
    + congruence.
Qed.

Lemma velocity_within_maxSpeed_witness :
  (0 <= Particle.maxSpeed Scene.fleeing
   /\ Vector.mag (Particle.velocity (Particle.update Scene.fleeing))
      <= Particle.maxSpeed (Particle.update Scene.fleeing))
  /\ exists s',
       ParticleSystem.update 800 600 Scene.halves
         (ParticleSystem.new 800 600 Scene.halves 2 0) = Some s'
       /\ Forall within_speed (ParticleSystem.particles s').
Proof.
  assert (Hs : 0 <= Particle.maxSpeed Scene.fleeing) by (simpl; lra).
  split.
  - split; [exact Hs|].
    exact (proj1 velocity_within_maxSpeed Scene.fleeing Hs).
  - destruct (update_spec 800 600 Scene.halves (fun _ => True) (fun _ => True)
                (ParticleSystem.new 800 600 Scene.halves 2 0))
      as (s' & Hup & _); [easy | easy | easy | now apply Forall_true |].
    exists s'. split; [exact Hup|].
    exact (proj2 velocity_within_maxSpeed 800 600 Scene.halves _ s'
             (ParticleSystem.reachable_new 800 600 Scene.halves 2 0) Hup).
Defined.

Lemma halves_unit : unit_draws Scene.halves.
Proof. intros k. unfold Scene.halves. lra. Qed.

(** C5. [Particle.update] subtracts [decay] from the lifespan of an
    unattracted particle and gives an attracted one
    [min(255, lifespan + decay * 2)]. A particle is constructed with
    lifespan 255, and, the generator serving draws in [0, 1), no
    particle of a reachable system has a lifespan above 255. *)
Theorem lifespan_update :
  (forall p : Particle.t,
     Particle.isAttracted p = false ->
     Particle.lifespan (Particle.update p) = Particle.lifespan p - Particle.decay p)
  /\ (forall p : Particle.t,
        Particle.isAttracted p = true ->
        Particle.lifespan (Particle.update p)
        = Rmin 255 (Particle.lifespan p + Particle.decay p * 2))
  /\ (forall (px py : R) (u : nat -> R),
        Particle.lifespan (Particle.new px py u) = 255)
  /\ (forall (width height : R) (rand : nat -> R) (s : ParticleSystem.t),
        unit_draws rand ->
        ParticleSystem.reachable width height rand s ->
        Forall (fun p => Particle.lifespan p <= 255) (ParticleSystem.particles s)).
Proof.
  repeat split.
  - apply update_lifespan_unattracted.
  - apply update_lifespan_attracted.
  - intros width height rand s Hrand Hreach.
    eapply Forall_impl;
      [now apply (reachable_well_formed width height rand)|].
    now intros p (_ & _ & _ & Hl).
Qed.

Lemma lifespan_update_witness :
  (Particle.isAttracted Scene.fleeing = false
   /\ Particle.lifespan (Particle.update Scene.fleeing)
      = Particle.lifespan Scene.fleeing - Particle.decay Scene.fleeing)
  /\ (Particle.isAttracted (Particle.with_isAttracted Scene.fading true) = true
      /\ Particle.lifespan (Particle.update (Particle.with_isAttracted Scene.fading true))
         = Rmin 255 (1 + 1 * 2))
  /\ (unit_draws Scene.halves
      /\ Forall (fun p => Particle.lifespan p <= 255)
           (ParticleSystem.particles (ParticleSystem.new 800 600 Scene.halves 2 0))).
Proof.
  destruct lifespan_update as (Hfree & Hheld & _ & Hbound).
  split; [|split].
  - split; [reflexivity|]. exact (Hfree Scene.fleeing eq_refl).
  - split; [reflexivity|].
    exact (Hheld (Particle.with_isAttracted Scene.fading true) eq_refl).
  - split; [exact halves_unit|].
    exact (Hbound 800 600 Scene.halves _ halves_unit
             (ParticleSystem.reachable_new 800 600 Scene.halves 2 0)).
Defined.

(** C6. A completed [update] leaves only particles with a positive
    lifespan, and it always completes; the loop body drops a particle
    found dead after its own [update] in that same turn. *)
Theorem dead_particles_removed (width height : R) (rand : nat -> R) :
  (forall s : ParticleSystem.t,
     exists s',
       ParticleSystem.update width height rand s = Some s'
       /\ Forall alive (ParticleSystem.particles s'))
  /\ (forall (s : ParticleSystem.t) (i : nat) (p : Particle.t),
        ParticleSystem.particles s !! i = Some p ->
        Particle.isDead
          (ParticleSystem.process width height p
             (ParticleSystem.particles s) (ParticleSystem.attractors s)) = true ->
        ParticleSystem.body width height i s
        = Some (ParticleSystem.with_particles s
                  (delete i (ParticleSystem.particles s)))).
Proof.
  split.
  - intros s.
    destruct (update_spec width height rand (fun _ => True) alive s)
      as (s' & Hup & _ & Halive & _);
      [easy | easy | | now apply Forall_true | eauto].
    intros p ps _. apply isDead_false_alive.
  - intros s i p Hp Hdead.
    pose proof (body_spec width height i s p Hp) as Hbody. simpl in Hbody.
    rewrite Hdead in Hbody. now rewrite delete_take_drop.
Qed.

Lemma dead_particles_removed_witness :
  ParticleSystem.body 800 600 0 Scene.lonely
  = Some (ParticleSystem.with_particles Scene.lonely
            (delete 0%nat (ParticleSystem.particles Scene.lonely))).
Proof.
  apply (proj2 (dead_particles_removed 800 600 Scene.halves)
           Scene.lonely 0%nat Scene.fading eq_refl).
  apply bool_decide_eq_true_2.
  rewrite process_lifespan, process_isAttracted; simpl. lra.
Defined.

Lemma dist_self (v : Vector.t) : Vector.dist v v = 0.
Proof.
  unfold Vector.dist, Vector.mag, Vector.magSq, Vector.sub; simpl.
  rewrite <- sqrt_0. f_equal. ring.
Qed.

(** C7. Closer than one unit to the target, and so when the target is
    the particle's own position, [seek] returns the zero vector. [seek]
    only builds new vectors: the embedding gives it the particle as a
    value and gets a vector back, with no particle state to change. *)
Theorem seek_degenerate (p : Particle.t) (target : Vector.t) (strength : R) :
  (Vector.dist (Particle.position p) target < 1 ->
   Particle.seek p target strength = Vector.createVector 0 0)
  /\ Particle.seek p (Particle.position p) strength = Vector.createVector 0 0.
Proof.
  split; [apply seek_close|].
  apply seek_close. rewrite dist_self. lra.
Qed.

Lemma dist_fleeing_touching :
  Vector.dist (Particle.position Scene.fleeing) Scene.touching = 0.5.
Proof.
  unfold Vector.dist.
  replace (Vector.sub _ _) with (Vector.mk 0.5 0 0)
    by (symmetry; apply vector_eq; simpl; lra).
  apply mag_along_x. lra.
Qed.

Lemma seek_degenerate_witness :
  Vector.dist (Particle.position Scene.fleeing) Scene.touching < 1
  /\ Particle.seek Scene.fleeing Scene.touching 2.5 = Vector.createVector 0 0.
Proof.
  assert (Hd : Vector.dist (Particle.position Scene.fleeing) Scene.touching < 1).
  { rewrite dist_fleeing_touching. lra. }
  split; [exact Hd|].
  exact (proj1 (seek_degenerate Scene.fleeing Scene.touching 2.5) Hd).
Defined.

(** C8. With the attractors set to the empty list, [update] completes,
    every particle it leaves has [isAttracted] false, and the
    attraction step of the pass computes no force and only resets the
    flag. *)
Theorem empty_attractors (width height : R) (rand : nat -> R)
    (s : ParticleSystem.t) :
  (exists s',
     ParticleSystem.update width height rand (ParticleSystem.setAttractors s [])
     = Some s'
     /\ Forall unattracted (ParticleSystem.particles s'))
  /\ (forall q : Particle.t,
        ParticleSystem.attraction q [] = None
        /\ ParticleSystem.attract q [] = Particle.with_isAttracted q false).
Proof.
  split.
  - destruct (update_spec width height rand (fun _ => True) unattracted
                (ParticleSystem.setAttractors s []))
      as (s' & Hup & _ & Hflag & _);
      [easy | easy | | now apply Forall_true | eauto].
    intros p ps _ _. unfold unattracted. now rewrite process_isAttracted.
  - intros q. split; [reflexivity | now apply attract_None].
Qed.

Lemma limit_short_along_x (a max : R) :
  0 <= a <= max -> Vector.limit (Vector.mk a 0 0) max = Vector.mk a 0 0.
Proof.
  intros Ha. unfold Vector.limit.
  change (Vector.magSq (Vector.mk a 0 0)) with (a * a + 0 * 0 + 0 * 0).
  rewrite decide_False by nra. reflexivity.
Qed.

(** C9. At [(5, 300)] with velocity [(-3, 0)] on an 800 x 600 canvas,
    [borders] returns a force along the x-axis with a positive
    x-component, hence not the zero vector: it is [maxSpeed + 3]
    clamped to [maxForce], which is [(0.1, 0, 0)] with the constants
    the constructor sets. *)
Theorem borders_pushes_right (p : Particle.t) :
  Particle.position p = Vector.createVector 5 300 ->
  Particle.velocity p = Vector.createVector (-3) 0 ->
  0 < Particle.maxSpeed p ->
  0 < Particle.maxForce p ->
  Particle.borders p 800 600
  = Vector.mk (Rmin (Particle.maxForce p) (Particle.maxSpeed p + 3)) 0 0
  /\ Particle.borders p 800 600 <> Vector.createVector 0 0
  /\ 0 < Vector.x (Particle.borders p 800 600).
Proof.
  intros Hpos Hvel Hs Hf.
  assert (Hval : Particle.borders p 800 600
                 = Vector.mk (Rmin (Particle.maxForce p) (Particle.maxSpeed p + 3)) 0 0).
  { unfold Particle.borders. rewrite Hpos, Hvel; simpl.
    rewrite (decide_False (P := 300 < 50)) by lra.
    rewrite (decide_False (P := 600 - 50 < 300)) by lra.
    rewrite (decide_True (P := 5 < 50)) by lra.
    unfold Vector.createVector at 1. rewrite normalize_along_x by lra.
    replace (Vector.sub (Vector.mult (Vector.mk 1 0 0) (Particle.maxSpeed p))
                        (Vector.createVector (-3) 0))
      with (Vector.mk (Particle.maxSpeed p + 3) 0 0)
      by (symmetry; apply vector_eq; simpl; lra).
    destruct (Rlt_le_dec (Particle.maxForce p) (Particle.maxSpeed p + 3)) as [Hlt|Hle].
    - rewrite Rmin_left by lra. apply limit_along_x. lra.
    - rewrite Rmin_right by lra. apply limit_short_along_x. lra. }
  assert (Hx : 0 < Rmin (Particle.maxForce p) (Particle.maxSpeed p + 3)).
  { apply Rmin_glb_lt; lra. }
  rewrite Hval. repeat split.
  - intros [= Hzero]. lra.
  - simpl. lra.
Qed.

Lemma borders_pushes_right_witness :
  Particle.borders Scene.drifting 800 600 = Vector.mk (Rmin 0.1 (4 + 3)) 0 0
  /\ Particle.borders Scene.drifting 800 600 <> Vector.createVector 0 0
  /\ 0 < Vector.x (Particle.borders Scene.drifting 800 600).
Proof.
  apply (borders_pushes_right Scene.drifting eq_refl eq_refl); simpl; lra.
Defined.

Lemma add_zero_force (v : Vector.t) : Vector.add v (Vector.createVector 0 0) = v.
Proof. destruct v as [a b c]. apply vector_eq; simpl; lra. Qed.

Lemma dist_fleeing_landmark :
  Vector.dist (Particle.position Scene.fleeing) Scene.landmark = 2.
Proof.
  unfold Vector.dist.
  replace (Vector.sub _ _) with (Vector.mk 2 0 0)
    by (symmetry; apply vector_eq; simpl; lra).
  apply mag_along_x. lra.
Qed.

Lemma dist_fleeing_far_landmark :
  Vector.dist (Particle.position Scene.fleeing) Scene.far_landmark = 300.
Proof.
  unfold Vector.dist.
  replace (Vector.sub _ _) with (Vector.mk 300 0 0)
    by (symmetry; apply vector_eq; simpl; lra).
  apply mag_along_x. lra.
Qed.




(** C10. When some attractor lies closer than one unit, the closest
    one in range does too: the attraction step obtains the zero vector
    from [seek], so the accumulated acceleration is what the flocking
    forces left, yet the flag is raised and the particle's [update]
    regenerates its lifespan. *)
Theorem attraction_without_pull (width height : R) (p : Particle.t)
    (ps : list Particle.t) (atts : list Vector.t) (a : Vector.t) :
  a ∈ atts ->
  Vector.dist (Particle.position p) a < 1 ->
  let q := ParticleSystem.flock width height p ps in
  let p' := ParticleSystem.process width height p ps atts in
  ParticleSystem.attraction q atts = Some (Vector.createVector 0 0)
  /\ Particle.acceleration (ParticleSystem.attract q atts) = Particle.acceleration q
  /\ Particle.isAttracted (ParticleSystem.attract q atts) = true
  /\ Particle.isAttracted p' = true
  /\ Particle.lifespan p'
     = P5.min 255 (Particle.lifespan p + Particle.decay p * 2).
Proof.
  intros Hin Hclose q p'.
  assert (Hzero : ParticleSystem.attraction q atts = Some (Vector.createVector 0 0)).
  { unfold ParticleSystem.attraction.
    rewrite decide_True by (destruct atts; [now apply elem_of_nil in Hin | simpl; lia]).
    change (Particle.position q) with (Particle.position p).
    destruct (closest_fold_min (Particle.position p) atts None
                (Vector.dist (Particle.position p) a))
      as (d & a' & Hfold & Hd); [lra | right; exists a; split; [easy | lra] |].
    unfold ParticleSystem.closest. rewrite Hfold.
    apply closest_fold_sound in Hfold as [? | (_ & Hd' & _)]; [discriminate|].
    f_equal. apply seek_close.
    change (Particle.position q) with (Particle.position p). lra. }
  assert (Hflag : Particle.isAttracted p' = true).
  { subst p'. unfold ParticleSystem.process. fold q.
    now rewrite update_isAttracted, attract_flag, Hzero. }
  repeat split.
  - exact Hzero.
  - rewrite (attract_Some _ _ _ Hzero); simpl. apply add_zero_force.
  - now rewrite attract_flag, Hzero.
  - exact Hflag.
  - subst p'. rewrite process_lifespan. fold q in Hflag.
    unfold ParticleSystem.process in *. now rewrite Hflag.
Qed.

Lemma attraction_without_pull_witness :
  (Scene.touching ∈ [Scene.landmark; Scene.touching]
   /\ Vector.dist (Particle.position Scene.fleeing) Scene.touching < 1)
  /\ Particle.lifespan
       (ParticleSystem.process 800 600 Scene.fleeing [Scene.fleeing]
          [Scene.landmark; Scene.touching])
     = P5.min 255 (255 + 1 * 2).
Proof.
  assert (Hin : Scene.touching ∈ [Scene.landmark; Scene.touching]).
  { right. left. }
  assert (Hd : Vector.dist (Particle.position Scene.fleeing) Scene.touching < 1).
  { rewrite dist_fleeing_touching. lra. }
  split; [split; assumption|].
  exact (proj2 (proj2 (proj2 (proj2
           (attraction_without_pull 800 600 Scene.fleeing [Scene.fleeing]
              [Scene.landmark; Scene.touching] Scene.touching Hin Hd))))).
Defined.

(** * Further properties of the simulation *)

(** ** Inner products and the triangle inequality *)

Lemma magSq_mag_le (v : Vector.t) (m : R) :
  0 <= m -> Vector.mag v <= m -> Vector.magSq v <= m * m.
Proof.
  intros Hm Hv. rewrite <- mag_sq. pose proof (mag_nonneg v). nra.
Qed.

Lemma cauchy_schwarz (v w : Vector.t) :
  dot v w * dot v w <= Vector.magSq v * Vector.magSq w.
Proof.
  destruct v as [a b c], w as [d e f]. unfold dot, Vector.magSq; simpl.
  assert (Hid : (a * a + b * b + c * c) * (d * d + e * e + f * f)
                - (a * d + b * e + c * f) * (a * d + b * e + c * f)
                = (a * e - b * d) * (a * e - b * d)
                  + (a * f - c * d) * (a * f - c * d)
                  + (b * f - c * e) * (b * f - c * e)) by ring.
  pose proof (Rle_0_sqr (a * e - b * d)) as H1.
  pose proof (Rle_0_sqr (a * f - c * d)) as H2.
  pose proof (Rle_0_sqr (b * f - c * e)) as H3.
  unfold Rsqr in *. lra.
Qed.

Lemma dot_le_mag (v w : Vector.t) : dot v w <= Vector.mag v * Vector.mag w.
Proof.
  pose proof (cauchy_schwarz v w) as Hcs.
  rewrite <- (mag_sq v), <- (mag_sq w) in Hcs.
  pose proof (mag_nonneg v) as Hv. pose proof (mag_nonneg w) as Hw.
  assert (Hprod : 0 <= Vector.mag v * Vector.mag w) by now apply Rmult_le_pos.
  destruct (Rle_lt_dec (dot v w) (Vector.mag v * Vector.mag w)) as [Hle|Hgt];
    [exact Hle|].
  exfalso. nra.
Qed.

Lemma mag_add (v w : Vector.t) :
  Vector.mag (Vector.add v w) <= Vector.mag v + Vector.mag w.
Proof.
  pose proof (mag_nonneg v) as Hv. pose proof (mag_nonneg w) as Hw.
  pose proof (dot_le_mag v w) as Hdot.
  assert (Hsq : Vector.magSq (Vector.add v w)
                = Vector.magSq v + 2 * dot v w + Vector.magSq w).
  { destruct v, w. unfold Vector.magSq, dot, Vector.add; simpl. ring. }
  unfold Vector.mag at 1. rewrite Hsq, <- (mag_sq v), <- (mag_sq w).
  rewrite <- (sqrt_sq (Vector.mag v + Vector.mag w)) by lra.
  apply sqrt_le_1_alt. nra.
Qed.

(** ** Flocking without neighbours *)

Lemma near_false (p o : Particle.t) (radius : R) :
  Vector.dist (Particle.position p) (Particle.position o) = 0
  \/ radius <= Vector.dist (Particle.position p) (Particle.position o) ->
  Particle.near p o radius = false.
Proof.
  intros [Hzero | Hfar]; unfold Particle.near.
  - rewrite Hzero, bool_decide_eq_false_2 by lra. reflexivity.
  - rewrite (bool_decide_eq_false_2 (_ < radius)) by lra.
    apply andb_false_r.
Qed.

Lemma fold_no_neighbour {A : Type} (f : A -> Particle.t -> A)
    (ps : list Particle.t) (acc : A) :
  Forall (fun o => forall a, f a o = a) ps -> fold_left f ps acc = acc.
Proof.
  induction 1 as [|o ps Ho _ IH]; simpl; [reflexivity|]. now rewrite Ho.
Qed.

(** X1. A particle whose every candidate neighbour is either at
    distance 0 (itself, or a coincident particle) or not closer than
    the radius gets the zero vector from [separate], [align] and
    [cohesion]. *)
Theorem no_neighbour_no_flocking (p : Particle.t) (ps : list Particle.t)
    (radius : R) :
  Forall (fun o =>
            Vector.dist (Particle.position p) (Particle.position o) = 0
            \/ radius <= Vector.dist (Particle.position p) (Particle.position o))
         ps ->
  Particle.separate p ps radius = Vector.createVector 0 0
  /\ Particle.align p ps radius = Vector.createVector 0 0
  /\ Particle.cohesion p ps radius = Vector.createVector 0 0.
Proof.
  intros Hfar.
  assert (Hnear : Forall (fun o => Particle.near p o radius = false) ps).
  { eapply Forall_impl; [exact Hfar|]. intros o. apply near_false. }
  repeat split.
  - unfold Particle.separate. rewrite fold_no_neighbour.
    + cbv beta iota zeta.
      rewrite (decide_False (P := (0 < 0)%nat)) by lia.
      rewrite decide_False by (rewrite mag_createVector_0; lra). reflexivity.
    + eapply Forall_impl; [exact Hnear|]. intros o Ho acc.
      unfold Particle.separate_body. now rewrite Ho.
  - unfold Particle.align. rewrite fold_no_neighbour.
    + cbv beta iota zeta. now rewrite (decide_False (P := (0 < 0)%nat)) by lia.
    + eapply Forall_impl; [exact Hnear|]. intros o Ho acc.
      unfold Particle.sum_body. now rewrite Ho.
  - unfold Particle.cohesion. rewrite fold_no_neighbour.
    + cbv beta iota zeta. now rewrite (decide_False (P := (0 < 0)%nat)) by lia.
    + eapply Forall_impl; [exact Hnear|]. intros o Ho acc.
      unfold Particle.sum_body. now rewrite Ho.
Qed.

Lemma no_neighbour_no_flocking_witness :
  Particle.separate Scene.fleeing [Scene.fleeing] 25 = Vector.createVector 0 0
  /\ Particle.align Scene.fleeing [Scene.fleeing] 50 = Vector.createVector 0 0.
Proof.
  assert (Halone : forall radius,
            Forall (fun o =>
                      Vector.dist (Particle.position Scene.fleeing) (Particle.position o) = 0
                      \/ radius <= Vector.dist (Particle.position Scene.fleeing)
                                      (Particle.position o))
                   [Scene.fleeing]).
  { intros radius. apply Forall_singleton. left. apply dist_self. }
  split.
  - exact (proj1 (no_neighbour_no_flocking Scene.fleeing [Scene.fleeing] 25 (Halone 25))).
  - exact (proj1 (proj2 (no_neighbour_no_flocking Scene.fleeing [Scene.fleeing] 50
                           (Halone 50)))).
Defined.

(** ** One step of a particle *)

Lemma sub_add_cancel (v w : Vector.t) : Vector.sub (Vector.add v w) v = w.
Proof. destruct v, w. apply vector_eq; simpl; ring. Qed.

Lemma mult_0_zero (v : Vector.t) : Vector.mult v 0 = Vector.createVector 0 0.
Proof. destruct v. apply vector_eq; simpl; ring. Qed.

(** X2. [Particle.update] moves the particle by its new velocity, so by
    at most [maxSpeed], and leaves the accumulator at the zero vector
    whatever forces had been applied. *)
Theorem update_step (p : Particle.t) :
  0 <= Particle.maxSpeed p ->
  Particle.position (Particle.update p)
  = Vector.add (Particle.position p) (Particle.velocity (Particle.update p))
  /\ Vector.dist (Particle.position p) (Particle.position (Particle.update p))
     <= Particle.maxSpeed p
  /\ Particle.acceleration (Particle.update p) = Vector.createVector 0 0.
Proof.
  intros Hs. split; [reflexivity|]. split.
  - unfold Vector.dist, Particle.update; simpl. rewrite sub_add_cancel.
    now apply mag_limit.
  - apply mult_0_zero.
Qed.

Lemma update_step_witness :
  0 <= Particle.maxSpeed Scene.fleeing
  /\ Vector.dist (Particle.position Scene.fleeing)
       (Particle.position (Particle.update Scene.fleeing))
     <= Particle.maxSpeed Scene.fleeing.
Proof.
  assert (Hs : 0 <= Particle.maxSpeed Scene.fleeing) by (simpl; lra).
  split; [exact Hs|].
  exact (proj1 (proj2 (update_step Scene.fleeing Hs))).
Defined.

(** ** Clamping keeps directions *)

(** [limit] multiplies every component by one non-negative factor,
    positive when the bound is. *)
Lemma limit_scales (v : Vector.t) (max : R) :
  0 <= max ->
  exists c, 0 <= c /\ (0 < max -> 0 < c)
    /\ Vector.x (Vector.limit v max) = Vector.x v * c
    /\ Vector.y (Vector.limit v max) = Vector.y v * c
    /\ Vector.z (Vector.limit v max) = Vector.z v * c.
Proof.
  intros Hmax. unfold Vector.limit. case_decide as Hlong.
  - assert (Hpos : 0 < Vector.magSq v) by nra.
    pose proof (sqrt_lt_R0 _ Hpos) as Hs.
    exists (max / sqrt (Vector.magSq v)). split; [|split].
    + apply Rmult_le_pos; [assumption|]. left. now apply Rinv_0_lt_compat.
    + intros Hm. apply Rmult_lt_0_compat; [assumption|]. now apply Rinv_0_lt_compat.
    + unfold Vector.div. rewrite decide_False by lra.
      simpl. repeat split; field; lra.
  - exists 1. split; [lra|]. split; [lra|]. repeat split; ring.
Qed.

Lemma axis_bound (ms q t m2 : R) :
  0 < ms -> m2 = ms * ms + q * q -> t * t + q * q <= ms * ms ->
  Rabs t <= ms * (1 / sqrt m2) * ms.
Proof.
  intros Hms -> Hv.
  assert (Hpos : 0 < ms * ms + q * q) by nra.
  pose proof (sqrt_lt_R0 _ Hpos) as Hs.
  pose proof (sqrt_sqrt (ms * ms + q * q) (Rlt_le _ _ Hpos)) as Hss.
  set (s := sqrt (ms * ms + q * q)) in *.
  pose proof (Rabs_pos t) as Ht.
  assert (Htt : Rabs t * Rabs t = t * t).
  { fold (Rsqr (Rabs t)). rewrite <- Rsqr_abs. reflexivity. }
  assert (Hprod : Rabs t * s <= ms * ms).
  { destruct (Rle_lt_dec (Rabs t * s) (ms * ms)) as [Hle|Hgt]; [exact Hle|].
    exfalso.
    assert (Hsq : (Rabs t * s) * (Rabs t * s) = (t * t) * (ms * ms + q * q)).
    { rewrite <- Htt, <- Hss. ring. }
    assert (Hbig : (ms * ms) * (ms * ms) < (Rabs t * s) * (Rabs t * s)) by nra.
    nra. }
  replace (ms * (1 / s) * ms) with (ms * ms / s) by (field; lra).
  apply Rmult_le_reg_r with s; [assumption|].
  replace (ms * ms / s * s) with (ms * ms) by (field; lra).
  exact Hprod.
Qed.

Section BordersFacts.

Variable p : Particle.t.
Variables width height : R.

Let px := Vector.x (Particle.position p).
Let py := Vector.y (Particle.position p).
Let vx := Vector.x (Particle.velocity p).
Let vy := Vector.y (Particle.velocity p).
Let ms := Particle.maxSpeed p.

(** The steering toward a desired velocity, as [borders] ends. *)
Let steer (desired : Vector.t) : Vector.t :=
  Vector.limit
    (Vector.sub (Vector.mult (Vector.normalize desired) ms) (Particle.velocity p))
    (Particle.maxForce p).

Lemma borders_left :
  px < 50 ->
  Particle.borders p width height = steer (Vector.createVector ms vy).
Proof.
  intros Hx. unfold Particle.borders. fold px py vx vy ms.
  rewrite (decide_True (P := px < 50)) by assumption.
  repeat case_decide; reflexivity.
Qed.

Lemma borders_right :
  50 <= px -> width - 50 < px ->
  Particle.borders p width height = steer (Vector.createVector (- ms) vy).
Proof.
  intros Hx1 Hx2. unfold Particle.borders. fold px py vx vy ms.
  rewrite (decide_False (P := px < 50)) by lra.
  rewrite (decide_True (P := width - 50 < px)) by assumption.
  repeat case_decide; reflexivity.
Qed.

Lemma borders_top :
  50 <= px <= width - 50 -> py < 50 ->
  Particle.borders p width height = steer (Vector.createVector vx ms).
Proof.
  intros Hx Hy. unfold Particle.borders. fold px py vx vy ms.
  rewrite (decide_False (P := px < 50)) by lra.
  rewrite (decide_False (P := width - 50 < px)) by lra.
  rewrite (decide_True (P := py < 50)) by assumption.
  reflexivity.
Qed.

Lemma borders_bottom :
  50 <= px <= width - 50 -> 50 <= py -> height - 50 < py ->
  Particle.borders p width height = steer (Vector.createVector vx (- ms)).
Proof.
  intros Hx Hy1 Hy2. unfold Particle.borders. fold px py vx vy ms.
  rewrite (decide_False (P := px < 50)) by lra.
  rewrite (decide_False (P := width - 50 < px)) by lra.
  rewrite (decide_False (P := py < 50)) by lra.
  rewrite (decide_True (P := height - 50 < py)) by assumption.
  reflexivity.
Qed.

Lemma borders_interior :
  50 <= px <= width - 50 -> 50 <= py <= height - 50 ->
  Particle.borders p width height = Vector.createVector 0 0.
Proof.
  intros Hx Hy. unfold Particle.borders. fold px py vx vy ms.
  rewrite (decide_False (P := px < 50)) by lra.
  rewrite (decide_False (P := width - 50 < px)) by lra.
  rewrite (decide_False (P := py < 50)) by lra.
  rewrite (decide_False (P := height - 50 < py)) by lra.
  reflexivity.
Qed.

Hypothesis speed_positive : 0 < ms.
Hypothesis force_nonneg : 0 <= Particle.maxForce p.
Hypothesis within : Vector.mag (Particle.velocity p) <= ms.

Lemma velocity_square : vx * vx + vy * vy <= ms * ms.
Proof.
  pose proof (magSq_mag_le _ _ (Rlt_le _ _ speed_positive) within) as Hsq.
  unfold Vector.magSq in Hsq. fold vx vy in Hsq.
  pose proof (Rle_0_sqr (Vector.z (Particle.velocity p))) as Hz.
  unfold Rsqr in Hz. lra.
Qed.

(** The unclamped steering toward [(a, b, 0)], one component at a
    time. *)
Lemma steer_components (a b : R) :
  0 < a * a + b * b ->
  exists c, 0 <= c
    /\ Vector.x (steer (Vector.createVector a b))
       = (a * (1 / sqrt (a * a + b * b)) * ms - vx) * c
    /\ Vector.y (steer (Vector.createVector a b))
       = (b * (1 / sqrt (a * a + b * b)) * ms - vy) * c.
Proof.
  intros Hpos. unfold steer.
  destruct (limit_scales
              (Vector.sub (Vector.mult (Vector.normalize (Vector.createVector a b)) ms)
                          (Particle.velocity p))
              (Particle.maxForce p) force_nonneg)
    as (c & Hc & _ & Hx & Hy & _).
  exists c. split; [exact Hc|]. rewrite Hx, Hy.
  unfold Vector.normalize, Vector.mag.
  change (Vector.magSq (Vector.createVector a b)) with (a * a + b * b + 0 * 0).
  replace (a * a + b * b + 0 * 0) with (a * a + b * b) by ring.
  pose proof (sqrt_lt_R0 _ Hpos) as Hs.
  rewrite decide_False by lra. split; reflexivity.
Qed.

Lemma borders_never_outward_aux :
  (px < 50 -> 0 <= Vector.x (Particle.borders p width height))
  /\ (50 <= px -> width - 50 < px ->
      Vector.x (Particle.borders p width height) <= 0)
  /\ (50 <= px <= width - 50 -> py < 50 ->
      0 <= Vector.y (Particle.borders p width height))
  /\ (50 <= px <= width - 50 -> 50 <= py -> height - 50 < py ->
      Vector.y (Particle.borders p width height) <= 0).
Proof.
  pose proof velocity_square as Hv.
  pose proof (Rle_abs vx) as Hax. pose proof (Rle_abs (- vx)) as Hax'.
  pose proof (Rle_abs vy) as Hay. pose proof (Rle_abs (- vy)) as Hay'.
  rewrite Rabs_Ropp in Hax', Hay'.
  repeat split.
  - intros Hx. rewrite (borders_left Hx).
    destruct (steer_components ms vy) as (c & Hc & -> & _); [nra|].
    pose proof (axis_bound ms vy vx (ms * ms + vy * vy) speed_positive eq_refl) as Hb.
    apply Rmult_le_pos; [|assumption]. lra.
  - intros Hx1 Hx2. rewrite (borders_right Hx1 Hx2).
    destruct (steer_components (- ms) vy) as (c & Hc & -> & _); [nra|].
    replace (- ms * - ms + vy * vy) with (ms * ms + vy * vy) by ring.
    pose proof (axis_bound ms vy vx (ms * ms + vy * vy) speed_positive eq_refl) as Hb.
    assert (Hneg : - ms * (1 / sqrt (ms * ms + vy * vy)) * ms - vx <= 0) by lra.
    nra.
  - intros Hx Hy. rewrite (borders_top Hx Hy).
    destruct (steer_components vx ms) as (c & Hc & _ & ->); [nra|].
    pose proof (axis_bound ms vx vy (vx * vx + ms * ms) speed_positive) as Hb.
    apply Rmult_le_pos; [|assumption].
    assert (Hb' : Rabs vy <= ms * (1 / sqrt (vx * vx + ms * ms)) * ms)
      by (apply Hb; [ring | lra]).
    lra.
  - intros Hx Hy1 Hy2. rewrite (borders_bottom Hx Hy1 Hy2).
    destruct (steer_components vx (- ms)) as (c & Hc & _ & ->); [nra|].
    replace (vx * vx + - ms * - ms) with (vx * vx + ms * ms) by ring.
    pose proof (axis_bound ms vx vy (vx * vx + ms * ms) speed_positive) as Hb.
    assert (Hb' : Rabs vy <= ms * (1 / sqrt (vx * vx + ms * ms)) * ms)
      by (apply Hb; [ring | lra]).
    assert (Hneg : - ms * (1 / sqrt (vx * vx + ms * ms)) * ms - vy <= 0) by lra.
    nra.
Qed.

End BordersFacts.

(** X3. For a particle not faster than its [maxSpeed], [borders] never
    pushes outward: near the left edge the force has no leftward
    component, near the right edge no rightward one, and likewise at
    the top and bottom when no vertical edge is near (a vertical edge
    takes precedence). Away from all four margins the force is the
    zero vector. *)
Theorem borders_never_outward (p : Particle.t) (width height : R) :
  0 < Particle.maxSpeed p ->
  0 <= Particle.maxForce p ->
  Vector.mag (Particle.velocity p) <= Particle.maxSpeed p ->
  let px := Vector.x (Particle.position p) in
  let py := Vector.y (Particle.position p) in
  let force := Particle.borders p width height in
  (px < 50 -> 0 <= Vector.x force)
  /\ (50 <= px -> width - 50 < px -> Vector.x force <= 0)
  /\ (50 <= px <= width - 50 -> py < 50 -> 0 <= Vector.y force)
  /\ (50 <= px <= width - 50 -> 50 <= py -> height - 50 < py -> Vector.y force <= 0)
  /\ (50 <= px <= width - 50 -> 50 <= py <= height - 50 ->
      force = Vector.createVector 0 0).
Proof.
  intros Hs Hf Hv px py force.
  destruct (borders_never_outward_aux p width height Hs Hf Hv)
    as (Hleft & Hright & Htop & Hbottom).
  repeat split; try assumption.
  apply borders_interior.
Qed.

Lemma mag_fleeing_velocity : Vector.mag (Particle.velocity Scene.fleeing) = 1.
Proof.
  unfold Vector.mag, Vector.magSq; simpl.
  replace (-1 * -1 + 0 * 0 + 0 * 0) with (1 * 1) by ring. apply sqrt_sq. lra.
Qed.

Lemma borders_never_outward_witness :
  Vector.x (Particle.position Scene.drifting) < 50
  /\ 0 <= Vector.x (Particle.borders Scene.drifting 800 600).
Proof.
  assert (Hx : Vector.x (Particle.position Scene.drifting) < 50) by (simpl; lra).
  split; [exact Hx|].
  refine (proj1 (borders_never_outward Scene.drifting 800 600 _ _ _) Hx).
  - simpl; lra.
  - simpl; lra.
  - unfold Vector.mag, Vector.magSq; simpl.
    replace (-3 * -3 + 0 * 0 + 0 * 0) with (3 * 3) by ring.
    rewrite sqrt_sq; lra.
Defined.

(** ** Seeking *)

Lemma dot_scaled (v w : Vector.t) (c : R) (u : Vector.t) :
  Vector.x u = Vector.x v * c ->
  Vector.y u = Vector.y v * c ->
  Vector.z u = Vector.z v * c ->
  dot u w = dot v w * c.
Proof. intros Hx Hy Hz. unfold dot. rewrite Hx, Hy, Hz. ring. Qed.

(** The pull of the unclamped steering along the line to the target. *)
Lemma seek_unclamped_dot (p : Particle.t) (desired : Vector.t) :
  0 < Vector.mag desired ->
  dot (Vector.sub (Vector.mult (Vector.normalize desired) (Particle.maxSpeed p))
                  (Particle.velocity p)) desired
  = Particle.maxSpeed p * Vector.mag desired - dot (Particle.velocity p) desired.
Proof.
  intros Hlen. unfold Vector.normalize. rewrite decide_False by lra.
  pose proof (mag_sq desired) as Hsq.
  destruct desired as [a b c], (Particle.velocity p) as [u v w].
  unfold dot, Vector.sub, Vector.mult; simpl.
  unfold Vector.magSq in Hsq; simpl in Hsq.
  set (len := Vector.mag _) in *.
  replace (a * (1 / len) * Particle.maxSpeed p) with (Particle.maxSpeed p * a / len)
    by (field; lra).
  replace (b * (1 / len) * Particle.maxSpeed p) with (Particle.maxSpeed p * b / len)
    by (field; lra).
  replace (c * (1 / len) * Particle.maxSpeed p) with (Particle.maxSpeed p * c / len)
    by (field; lra).
  replace ((Particle.maxSpeed p * a / len - u) * a
           + (Particle.maxSpeed p * b / len - v) * b
           + (Particle.maxSpeed p * c / len - w) * c)
    with (Particle.maxSpeed p * (a * a + b * b + c * c) / len
          - (u * a + v * b + w * c)) by (field; lra).
  rewrite <- Hsq. field. lra.
Qed.

(** X4. For a particle not faster than its [maxSpeed] and a
    non-negative strength, the force from [seek] never points away
    from the target; it points toward it when the particle is slower
    than [maxSpeed], at least one unit away, and [maxForce] and the
    strength are positive. *)
Theorem seek_never_repels (p : Particle.t) (target : Vector.t) (strength : R) :
  0 <= Particle.maxForce p ->
  0 <= strength ->
  Vector.mag (Particle.velocity p) <= Particle.maxSpeed p ->
  let toward := Vector.sub target (Particle.position p) in
  0 <= dot (Particle.seek p target strength) toward
  /\ (0 < Particle.maxForce p -> 0 < strength ->
      Vector.mag (Particle.velocity p) < Particle.maxSpeed p ->
      1 <= Vector.dist (Particle.position p) target ->
      0 < dot (Particle.seek p target strength) toward).
Proof.
  intros Hf Hk Hv toward.
  assert (Hfar : ~ Vector.mag toward < 1 ->
            exists c, 0 <= c /\ (0 < Particle.maxForce p -> 0 < c)
              /\ dot (Particle.seek p target strength) toward
                 = (Particle.maxSpeed p * Vector.mag toward
                    - dot (Particle.velocity p) toward) * c * strength).
  { intros Hlen. unfold Particle.seek. fold toward.
    rewrite decide_False by assumption.
    destruct (limit_scales
                (Vector.sub (Vector.mult (Vector.normalize toward) (Particle.maxSpeed p))
                            (Particle.velocity p))
                (Particle.maxForce p) Hf) as (c & Hc & Hcpos & Hx & Hy & Hz).
    exists c. split; [exact Hc|]. split; [exact Hcpos|].
    rewrite (dot_scaled (Vector.limit _ (Particle.maxForce p)) toward strength)
      by reflexivity.
    rewrite (dot_scaled _ toward c _ Hx Hy Hz).
    rewrite seek_unclamped_dot by lra. reflexivity. }
  pose proof (dot_le_mag (Particle.velocity p) toward) as Hcs.
  pose proof (mag_nonneg toward) as Hlen0.
  pose proof (mag_nonneg (Particle.velocity p)) as Hv0.
  split.
  - destruct (decide (Vector.mag toward < 1)) as [Hclose|Hlen].
    + unfold Particle.seek. fold toward. rewrite decide_True by assumption.
      unfold dot; simpl. lra.
    + destruct (Hfar Hlen) as (c & Hc & _ & ->).
      apply Rmult_le_pos; [|assumption]. apply Rmult_le_pos; [|assumption]. nra.
  - intros Hfpos Hkpos Hslow Hdist.
    unfold Vector.dist in Hdist. fold toward in Hdist.
    destruct (Hfar ltac:(lra)) as (c & _ & Hc & ->).
    apply Rmult_lt_0_compat; [|assumption].
    apply Rmult_lt_0_compat; [|now apply Hc]. nra.
Qed.

Lemma seek_never_repels_witness :
  0 <= Particle.maxForce Scene.fleeing
  /\ 0 <= 2.5
  /\ Vector.mag (Particle.velocity Scene.fleeing) <= Particle.maxSpeed Scene.fleeing
  /\ 0 <= dot (Particle.seek Scene.fleeing Scene.landmark 2.5)
              (Vector.sub Scene.landmark (Particle.position Scene.fleeing)).
Proof.
  assert (Hf : 0 <= Particle.maxForce Scene.fleeing) by (simpl; lra).
  assert (Hk : 0 <= 2.5) by lra.
  assert (Hv : Vector.mag (Particle.velocity Scene.fleeing)
               <= Particle.maxSpeed Scene.fleeing).
  { rewrite mag_fleeing_velocity. simpl. lra. }
  repeat split; try assumption.
  exact (proj1 (seek_never_repels Scene.fleeing Scene.landmark 2.5 Hf Hk Hv)).
Defined.

(** ** The force budget of a tick *)

Lemma mag_attraction_force (p : Particle.t) (atts : list Vector.t) (force : Vector.t) :
  0 <= Particle.maxForce p ->
  ParticleSystem.attraction p atts = Some force ->
  Vector.mag force <= Particle.maxForce p * 2.5.
Proof.
  intros Hf (a & _ & Hr & ->)%attraction_inv.
  pose proof (mag_nonneg (Vector.sub a (Particle.position p))) as Hd.
  fold (Vector.dist (Particle.position p) a) in Hd.
  pose proof (attraction_strength_range _ (conj Hd Hr)) as Hk.
  etransitivity; [now apply mag_seek|].
  rewrite Rabs_pos_eq by lra. nra.
Qed.

Lemma mag_applyForce (p : Particle.t) (force : Vector.t) (bound : R) :
  Vector.mag force <= bound ->
  Vector.mag (Particle.acceleration (Particle.applyForce p force))
  <= Vector.mag (Particle.acceleration p) + bound.
Proof.
  intros Hb. simpl. etransitivity; [apply mag_add|]. lra.
Qed.

Lemma mag_weighted (v : Vector.t) (weight bound : R) :
  0 <= weight -> Vector.mag v <= bound ->
  Vector.mag (Vector.mult v weight) <= bound * weight.
Proof.
  intros Hw Hv. rewrite mag_mult, Rabs_pos_eq by assumption.
  now apply Rmult_le_compat_r.
Qed.

(** X5. Whatever the population and the attractors, the forces one
    pass of [update] adds to a particle's accumulator before its
    [p.update()] amount to at most seven times [maxForce]: 1.5 for
    separation, 1 for alignment, 0.5 for cohesion, 1.5 for the borders
    and 2.5 for the attraction. *)
Theorem tick_force_budget (width height : R) (p : Particle.t)
    (ps : list Particle.t) (atts : list Vector.t) :
  0 <= Particle.maxForce p ->
  Vector.mag (Particle.acceleration
                (ParticleSystem.attract (ParticleSystem.flock width height p ps) atts))
  <= Vector.mag (Particle.acceleration p) + 7 * Particle.maxForce p.
Proof.
  intros Hf.
  set (mf := Particle.maxForce p) in *.
  assert (Hflock : Vector.mag (Particle.acceleration
                                 (ParticleSystem.flock width height p ps))
                   <= Vector.mag (Particle.acceleration p) + 4.5 * mf).
  { unfold ParticleSystem.flock.
    pose proof (mag_weighted _ 1.5 _ ltac:(lra) (mag_separate p ps 25 Hf)) as H1.
    pose proof (mag_weighted _ 1.0 _ ltac:(lra) (mag_align p ps 50 Hf)) as H2.
    pose proof (mag_weighted _ 1.0 _ ltac:(lra) (mag_cohesion p ps 50 Hf)) as H3.
    pose proof (mag_weighted _ 1.5 _ ltac:(lra)
                  (mag_borders p width height Hf)) as H4.
    fold mf in H1, H2, H3, H4.
    set (f1 := Vector.mult (Particle.separate p ps 25) 1.5) in *.
    set (f2 := Vector.mult (Particle.align p ps 50) 1.0) in *.
    set (f3 := Vector.mult (Particle.cohesion p ps 50) 1.0) in *.
    set (f4 := Vector.mult (Particle.borders p width height) 1.5) in *.
    pose proof (mag_applyForce p f1 _ H1) as A1.
    pose proof (mag_applyForce (Particle.applyForce p f1) f2 _ H2) as A2.
    pose proof (mag_applyForce
                  (Particle.applyForce (Particle.applyForce p f1) f2) f3 _ H3) as A3.
    pose proof (mag_applyForce
                  (Particle.applyForce
                     (Particle.applyForce (Particle.applyForce p f1) f2) f3)
                  f4 _ H4) as A4.
    lra. }
  set (q := ParticleSystem.flock width height p ps) in *.
  destruct (ParticleSystem.attraction q atts) as [force|] eqn:Hatt.
  - rewrite (attract_Some _ _ _ Hatt).
    pose proof (mag_attraction_force q atts force Hf Hatt) as Hforce.
    change (Particle.maxForce q) with mf in Hforce.
    pose proof (mag_applyForce (Particle.with_isAttracted q false) force _ Hforce) as A5.
    change (Particle.acceleration (Particle.with_isAttracted q false))
      with (Particle.acceleration q) in A5.
    change (Particle.acceleration
              (Particle.with_isAttracted
                 (Particle.applyForce (Particle.with_isAttracted q false) force) true))
      with (Particle.acceleration
              (Particle.applyForce (Particle.with_isAttracted q false) force)).
    lra.
  - rewrite (attract_None _ _ Hatt).
    change (Particle.acceleration (Particle.with_isAttracted q false))
      with (Particle.acceleration q).
    lra.
Qed.

Lemma tick_force_budget_witness :
  0 <= Particle.maxForce Scene.fleeing
  /\ Vector.mag (Particle.acceleration
                   (ParticleSystem.attract
                      (ParticleSystem.flock 800 600 Scene.fleeing
                         [Scene.fleeing; Scene.drifting])
                      [Scene.landmark]))
     <= Vector.mag (Particle.acceleration Scene.fleeing)
        + 7 * Particle.maxForce Scene.fleeing.
Proof.
  assert (Hf : 0 <= Particle.maxForce Scene.fleeing) by (simpl; lra).
  split; [exact Hf|].
  exact (tick_force_budget 800 600 Scene.fleeing [Scene.fleeing; Scene.drifting]
           [Scene.landmark] Hf).
Defined.

(** ** Construction *)

Lemma mag_random2D (u : R) : Vector.mag (Vector.random2D u) = 1.
Proof.
  unfold Vector.mag, Vector.magSq, Vector.random2D; simpl.
  set (angle := u * (2 * PI)).
  replace (1 * cos angle * (1 * cos angle) + 1 * sin angle * (1 * sin angle) + 0 * 0)
    with (Rsqr (sin angle) + Rsqr (cos angle)) by (unfold Rsqr; ring).
  rewrite sin2_cos2. apply sqrt_1.
Qed.

Lemma random1_range (u max : R) :
  0 <= u < 1 -> 0 <= max -> 0 <= P5.random1 u max <= max.
Proof. intros Hu Hmax. unfold P5.random1. nra. Qed.

(** X6. A particle as [addParticle] creates it, the generator serving
    draws in [0, 1): it lies on the canvas, moves at a speed between
    0.5 and 2, has nothing accumulated, a full lifespan, and size and
    decay in their ranges. [addParticle] puts it at the end of the
    population and uses up ten draws. *)
Theorem addParticle_spawn (width height : R) (rand : nat -> R)
    (s : ParticleSystem.t) :
  unit_draws rand -> 0 <= width -> 0 <= height ->
  exists p,
    ParticleSystem.particles (ParticleSystem.addParticle width height rand s)
    = ParticleSystem.particles s ++ [p]
    /\ ParticleSystem.drawn (ParticleSystem.addParticle width height rand s)
       = (ParticleSystem.drawn s + 10)%nat
    /\ on_canvas width height (Particle.position p)
    /\ 0.5 <= Vector.mag (Particle.velocity p) <= 2
    /\ Particle.acceleration p = Vector.createVector 0 0
    /\ Particle.lifespan p = 255
    /\ Particle.isAttracted p = false
    /\ 3 <= Particle.size p <= 8
    /\ 0.5 <= Particle.decay p <= 1.5.
Proof.
  intros Hrand Hw Hh. eexists. split; [reflexivity|]. split; [reflexivity|].
  split; [|split; [|split; [|split; [|split; [|split]]]]]; simpl.
  - split; apply random1_range; auto.
  - rewrite mag_mult, mag_random2D.
    pose proof (random_range (rand (ParticleSystem.drawn s + 2 + 1)%nat) 0.5 2
                  (Hrand _) ltac:(lra)) as Hr.
    rewrite Rabs_pos_eq by lra. lra.
  - reflexivity.
  - reflexivity.
  - reflexivity.
  - apply random_range; [apply Hrand | lra].
  - apply random_range; [apply Hrand | lra].
Qed.

Lemma addParticle_spawn_witness :
  unit_draws Scene.halves /\ 0 <= 800 /\ 0 <= 600
  /\ exists p,
       ParticleSystem.particles
         (ParticleSystem.addParticle 800 600 Scene.halves Scene.lonely)
       = ParticleSystem.particles Scene.lonely ++ [p]
       /\ on_canvas 800 600 (Particle.position p).
Proof.
  assert (Hw : 0 <= 800) by lra. assert (Hh : 0 <= 600) by lra.
  repeat split; try assumption; try apply halves_unit.
  destruct (addParticle_spawn 800 600 Scene.halves Scene.lonely halves_unit Hw Hh)
    as (p & Hps & _ & Hpos & _).
  exists p. split; assumption.
Defined.

Lemma iter_addParticle_frame (width height : R) (rand : nat -> R)
    (n : nat) (s : ParticleSystem.t) :
  let s' := Nat.iter n (ParticleSystem.addParticle width height rand) s in
  length (ParticleSystem.particles s') = (length (ParticleSystem.particles s) + n)%nat
  /\ ParticleSystem.maxParticles s' = ParticleSystem.maxParticles s
  /\ ParticleSystem.attractors s' = ParticleSystem.attractors s
  /\ ParticleSystem.drawn s' = (ParticleSystem.drawn s + 10 * n)%nat.
Proof.
  induction n as [|n IH]; simpl.
  - repeat split; lia.
  - destruct IH as (Hlen & Hmax & Hatts & Hdrawn).
    rewrite length_app; simpl. repeat split; try assumption; lia.
Qed.

Lemma iter_addParticle_Forall (width height : R) (rand : nat -> R)
    (P : Particle.t -> Prop) (n : nat) (s : ParticleSystem.t) :
  (forall px py k, P (Particle.new px py (fun j => rand (k + j)%nat))) ->
  Forall P (ParticleSystem.particles s) ->
  Forall P (ParticleSystem.particles
              (Nat.iter n (ParticleSystem.addParticle width height rand) s)).
Proof.
  intros Hnew Hs. induction n as [|n IH]; [assumption|].
  rewrite Nat.iter_succ. unfold ParticleSystem.addParticle at 1; simpl.
  apply Forall_app_2; [assumption|]. apply Forall_singleton, Hnew.
Qed.

Lemma new_is_full_frame_aux (width height : R) (rand : nat -> R)
    (numParticles seed : nat) :
  length (ParticleSystem.particles
            (ParticleSystem.new width height rand numParticles seed)) = numParticles
  /\ ParticleSystem.maxParticles
       (ParticleSystem.new width height rand numParticles seed) = numParticles.
Proof.
  destruct (iter_addParticle_frame width height rand numParticles
              (ParticleSystem.mk [] [] numParticles seed))
    as (Hlen & Hmax & _).
  split; assumption.
Qed.

(** X7. The constructor builds exactly [numParticles] particles, with
    [maxParticles] set to that number and no attractors, from ten draws
    each; the system is full, so the replenishing loop of the first
    [update] adds nothing. *)
Theorem new_is_full (width height : R) (rand : nat -> R)
    (numParticles seed : nat) :
  let s := ParticleSystem.new width height rand numParticles seed in
  length (ParticleSystem.particles s) = numParticles
  /\ ParticleSystem.maxParticles s = numParticles
  /\ ParticleSystem.attractors s = []
  /\ ParticleSystem.drawn s = (seed + 10 * numParticles)%nat
  /\ ParticleSystem.replenish width height rand s = s.
Proof.
  destruct (iter_addParticle_frame width height rand numParticles
              (ParticleSystem.mk [] [] numParticles seed))
    as (Hlen & Hmax & Hatts & Hdrawn).
  simpl in Hlen, Hmax, Hatts, Hdrawn.
  simpl. fold (ParticleSystem.new width height rand numParticles seed) in *.
  repeat split; try assumption.
  unfold ParticleSystem.replenish. rewrite Hlen, Hmax, Nat.sub_diag. reflexivity.
Qed.

(** ** The invariant of the running sketch *)

Lemma new_particle_invariant (rand : nat -> R) (px py : R) (k : nat) :
  unit_draws rand ->
  let p := Particle.new px py (fun j => rand (k + j)%nat) in
  Particle.acceleration p = Vector.createVector 0 0
  /\ alive p /\ within_speed p.
Proof.
  intros Hrand. simpl. split; [reflexivity|]. split.
  - unfold alive; simpl. lra.
  - unfold within_speed; simpl. rewrite mag_mult, mag_random2D.
    pose proof (random_range (rand (k + 1)%nat) 0.5 2 (Hrand _) ltac:(lra)) as Hr.
    rewrite Rabs_pos_eq by lra. lra.
Qed.

Lemma process_invariant (width height : R) (p : Particle.t)
    (ps : list Particle.t) (atts : list Vector.t) :
  well_formed p ->
  Particle.isDead (ParticleSystem.process width height p ps atts) = false ->
  let p' := ParticleSystem.process width height p ps atts in
  Particle.acceleration p' = Vector.createVector 0 0
  /\ alive p' /\ within_speed p'.
Proof.
  intros (Hs & _) Hdead. simpl. split; [|split].
  - unfold ParticleSystem.process, Particle.update; simpl. apply mult_0_zero.
  - now apply isDead_false_alive.
  - unfold ParticleSystem.process. apply update_within_speed.
    destruct (attract_lifespan (ParticleSystem.flock width height p ps) atts)
      as (_ & _ & -> & _).
    simpl. rewrite Hs. lra.
Qed.

(** X8. In every state the sketch can reach, the generator serving
    draws in [0, 1): the population is not above [maxParticles], and
    every particle has an empty accumulator, a lifespan in (0, 255], a
    speed within [maxSpeed], and the constants and decay range of the
    constructor. *)
Theorem reachable_state_invariant (width height : R) (rand : nat -> R)
    (s : ParticleSystem.t) :
  unit_draws rand ->
  ParticleSystem.reachable width height rand s ->
  (length (ParticleSystem.particles s) <= ParticleSystem.maxParticles s)%nat
  /\ Forall (fun p =>
               well_formed p
               /\ Particle.acceleration p = Vector.createVector 0 0
               /\ alive p
               /\ within_speed p)
            (ParticleSystem.particles s).
Proof.
  intros Hrand. induction 1 as [n seed | s l _ IH | s s' _ IH Hup].
  - destruct (new_is_full_frame_aux width height rand n seed) as (Hlen & Hmax).
    split; [lia|].
    apply iter_addParticle_Forall; [|constructor].
    intros px py k. split; [now apply new_well_formed|].
    now apply new_particle_invariant.
  - exact IH.
  - destruct IH as (Hlen & Hinv).
    destruct (update_spec width height rand well_formed
                (fun p => Particle.acceleration p = Vector.createVector 0 0
                          /\ alive p /\ within_speed p) s)
      as (s2 & Hup2 & Hwf & HQ & _ & Hmax & Hcount).
    + intros px py k. now apply new_well_formed.
    + intros p ps. apply process_well_formed.
    + intros p ps Hp Hdead. now apply process_invariant.
    + eapply Forall_impl; [exact Hinv|]. now intros p (Hp & _).
    + assert (s' = s2) as -> by congruence.
      split; [lia|].
      apply Forall_and. split; assumption.
Qed.

Lemma reachable_state_invariant_witness :
  unit_draws Scene.halves
  /\ (length (ParticleSystem.particles
                (ParticleSystem.new 800 600 Scene.halves 3 0))
      <= ParticleSystem.maxParticles (ParticleSystem.new 800 600 Scene.halves 3 0))%nat.
Proof.
  split; [exact halves_unit|].
  exact (proj1 (reachable_state_invariant 800 600 Scene.halves _ halves_unit
                  (ParticleSystem.reachable_new 800 600 Scene.halves 3 0))).
Defined.

(** ** Choosing the attractor *)

Section ClosestSpec.

Variable pos : Vector.t.

Lemma closest_fold_keep (atts : list Vector.t) (d : R) (a : Vector.t) :
  Forall (fun b => d <= Vector.dist pos b) atts ->
  fold_left (ParticleSystem.closest_body pos) atts (Some (d, a)) = Some (d, a).
Proof.
  induction 1 as [|b atts Hb _ IH]; [reflexivity|].
  cbn [fold_left].
  replace (ParticleSystem.closest_body pos (Some (d, a)) b) with (Some (d, a));
    [exact IH|].
  unfold ParticleSystem.closest_body.
  rewrite (bool_decide_eq_false_2 (Vector.dist pos b < d)) by lra. reflexivity.
Qed.

Lemma closest_fold_None (atts : list Vector.t) :
  fold_left (ParticleSystem.closest_body pos) atts None = None
  <-> Forall (fun a => 150 <= Vector.dist pos a) atts.
Proof.
  induction atts as [|a atts IH].
  - split; [constructor | reflexivity].
  - cbn [fold_left]. unfold ParticleSystem.closest_body at 2.
    cbn [andb].
    destruct (bool_decide (Vector.dist pos a < 150)) eqn:Hr.
    + apply bool_decide_eq_true in Hr. split.
      * intros Hnone.
        destruct (closest_fold_Some pos atts (Vector.dist pos a, a)) as [best Hbest].
        congruence.
      * intros Hall. apply Forall_cons in Hall as [Ha _]. lra.
    + apply bool_decide_eq_false in Hr. rewrite IH, Forall_cons. split.
      * intros Hall. split; [lra | exact Hall].
      * now intros [_ Hall].
Qed.

End ClosestSpec.

(** X9. The scan of the attraction step finds nothing exactly when
    every attractor is 150 units away or more; otherwise it returns an
    attractor of the list with its distance, below 150 and not above
    the distance of any other; and among attractors at the smallest
    distance it returns the first of the list. *)
Theorem closest_is_nearest (pos : Vector.t) (atts : list Vector.t) :
  (ParticleSystem.closest pos atts = None
   <-> Forall (fun a => 150 <= Vector.dist pos a) atts)
  /\ (forall d a,
        ParticleSystem.closest pos atts = Some (d, a) ->
        a ∈ atts /\ d = Vector.dist pos a /\ d < 150
        /\ Forall (fun b => d <= Vector.dist pos b) atts)
  /\ (forall before a after,
        atts = before ++ a :: after ->
        Vector.dist pos a < 150 ->
        Forall (fun b => Vector.dist pos a < Vector.dist pos b) before ->
        Forall (fun b => Vector.dist pos a <= Vector.dist pos b) after ->
        ParticleSystem.closest pos atts = Some (Vector.dist pos a, a)).
Proof.
  split; [apply closest_fold_None|]. split.
  - intros d a Hclosest. unfold ParticleSystem.closest in Hclosest.
    destruct (closest_fold_sound pos atts None d a Hclosest)
      as [? | (Hin & Hd & Hr)]; [discriminate|].
    repeat split; try assumption.
    apply Forall_forall. intros b Hb.
    destruct (Rlt_le_dec (Vector.dist pos b) 150) as [Hbr|Hbr]; [|lra].
    destruct (closest_fold_min pos atts None (Vector.dist pos b) Hbr)
      as (d' & a' & Hfold & Hle); [right; eauto using Rle_refl|].
    rewrite Hclosest in Hfold. injection Hfold as <- <-. exact Hle.
  - intros before a after -> Hr Hbefore Hafter.
    unfold ParticleSystem.closest. rewrite fold_left_app. simpl.
    assert (Hstep : ParticleSystem.closest_body pos
                      (fold_left (ParticleSystem.closest_body pos) before None) a
                    = Some (Vector.dist pos a, a)).
    { destruct (fold_left _ before None) as [[d0 b0]|] eqn:Hfold.
      - destruct (closest_fold_sound pos before None d0 b0 Hfold)
          as [? | (Hin & Hd & _)]; [discriminate|].
        rewrite Forall_forall in Hbefore. specialize (Hbefore b0 Hin).
        unfold ParticleSystem.closest_body.
        rewrite !bool_decide_eq_true_2 by lra. reflexivity.
      - unfold ParticleSystem.closest_body.
        rewrite bool_decide_eq_true_2 by lra. reflexivity. }
    rewrite Hstep. now apply closest_fold_keep.
Qed.

Lemma closest_is_nearest_witness :
  Vector.dist (Particle.position Scene.fleeing) Scene.touching < 150
  /\ ParticleSystem.closest (Particle.position Scene.fleeing)
       [Scene.landmark; Scene.touching; Scene.far_landmark; Scene.touching]
     = Some (Vector.dist (Particle.position Scene.fleeing) Scene.touching,
             Scene.touching).
Proof.
  assert (Hr : Vector.dist (Particle.position Scene.fleeing) Scene.touching < 150).
  { rewrite dist_fleeing_touching. lra. }
  split; [exact Hr|].
  apply (proj2 (proj2 (closest_is_nearest (Particle.position Scene.fleeing)
                         [Scene.landmark; Scene.touching; Scene.far_landmark;
                          Scene.touching]))
           [Scene.landmark] Scene.touching [Scene.far_landmark; Scene.touching]
           eq_refl Hr).
  - apply Forall_singleton.
    rewrite dist_fleeing_touching, dist_fleeing_landmark. lra.
  - apply Forall_cons. split.
    + rewrite dist_fleeing_touching, dist_fleeing_far_landmark. lra.
    + apply Forall_singleton. lra.
Defined.

(** ** What a pass does to the population as a whole *)

Section PassFacts.

Variables width height : R.
Variable atts : list Vector.t.

(** What relates a survivor to the particle it was before the pass. *)
Let aged_from (p' p : Particle.t) : Prop :=
  Particle.lifespan p' = aged atts p
  /\ Particle.decay p' = Particle.decay p
  /\ Particle.size p' = Particle.size p
  /\ Particle.color p' = Particle.color p.

Lemma process_aged (p : Particle.t) (ps : list Particle.t) :
  aged_from (ParticleSystem.process width height p ps atts) p.
Proof.
  unfold aged_from, aged. rewrite process_lifespan, process_isAttracted.
  split; [reflexivity|].
  unfold ParticleSystem.process.
  destruct (ParticleSystem.attraction (ParticleSystem.flock width height p ps) atts)
    as [force|] eqn:Hatt.
  - now rewrite (attract_Some _ _ _ Hatt).
  - now rewrite (attract_None _ _ Hatt).
Qed.

Lemma process_dead_iff (p : Particle.t) (ps : list Particle.t) :
  Particle.isDead (ParticleSystem.process width height p ps atts) = true
  <-> ~ 0 < aged atts p.
Proof.
  unfold Particle.isDead. rewrite bool_decide_eq_true.
  destruct (process_aged p ps) as (-> & _). split; lra.
Qed.

Lemma loop_ages (n : nat) :
  forall s : ParticleSystem.t,
    ParticleSystem.attractors s = atts ->
    (n <= length (ParticleSystem.particles s))%nat ->
    exists s' front,
      ParticleSystem.loop width height n s = Some s'
      /\ ParticleSystem.particles s' = front ++ drop n (ParticleSystem.particles s)
      /\ Forall2 aged_from front
           (filter (fun p => 0 < aged atts p) (take n (ParticleSystem.particles s))).
Proof.
  induction n as [|i IH]; intros s Hatts Hn.
  - exists s, []. simpl. repeat split. constructor.
  - destruct (lookup_lt_is_Some_2 (ParticleSystem.particles s) i) as [p Hp]; [lia|].
    pose proof (body_spec width height i s p Hp) as Hbody. simpl in Hbody.
    rewrite Hatts in Hbody.
    set (p' := ParticleSystem.process width height p (ParticleSystem.particles s) atts) in *.
    set (mid := if Particle.isDead p' then [] else [p']) in *.
    set (s1 := ParticleSystem.with_particles s
                 (take i (ParticleSystem.particles s) ++ mid
                  ++ drop (S i) (ParticleSystem.particles s))) in *.
    assert (Htake : length (take i (ParticleSystem.particles s)) = i)
      by (apply length_take_le; lia).
    destruct (IH s1) as (s' & front & Hloop & Hps & Hfront).
    + exact Hatts.
    + subst s1; simpl. rewrite length_app. lia.
    + exists s', (front ++ mid). split; [|split].
      * simpl. rewrite Hbody. exact Hloop.
      * rewrite Hps. subst s1; simpl.
        rewrite drop_app_length' by easy. now rewrite <- app_assoc.
      * rewrite (take_S_r _ _ _ Hp), filter_app.
        apply Forall2_app.
        -- subst s1; simpl in Hfront.
           now rewrite take_app_length' in Hfront by easy.
        -- subst mid. destruct (Particle.isDead p') eqn:Hdead.
           ++ apply process_dead_iff in Hdead.
              rewrite filter_cons_False by assumption. constructor.
           ++ assert (Halive : 0 < aged atts p).
              { destruct (Rlt_le_dec 0 (aged atts p)) as [Hpos|Hneg]; [exact Hpos|].
                assert (Hd : Particle.isDead p' = true)
                  by (apply process_dead_iff; lra).
                congruence. }
              rewrite filter_cons_True by assumption.
              constructor; [apply process_aged | constructor].
Qed.

End PassFacts.

(** X10. A completed [update] ages every particle of the replenished
    population exactly once and keeps, in their order, exactly those
    whose new lifespan is positive: the survivors are, one for one, the
    particles with a positive aged lifespan, each with that lifespan
    and with its decay, size and colour unchanged. *)
Theorem update_ages_each_once (width height : R) (rand : nat -> R)
    (s : ParticleSystem.t) :
  exists s',
    ParticleSystem.update width height rand s = Some s'
    /\ Forall2
         (fun p' p =>
            Particle.lifespan p' = aged (ParticleSystem.attractors s) p
            /\ Particle.decay p' = Particle.decay p
            /\ Particle.size p' = Particle.size p
            /\ Particle.color p' = Particle.color p)
         (ParticleSystem.particles s')
         (filter (fun p => 0 < aged (ParticleSystem.attractors s) p)
                 (ParticleSystem.particles
                    (ParticleSystem.replenish width height rand s))).
Proof.
  unfold ParticleSystem.update.
  set (s1 := ParticleSystem.replenish width height rand s).
  assert (Hatts : ParticleSystem.attractors s1 = ParticleSystem.attractors s)
    by apply fill_frame.
  destruct (loop_ages width height (ParticleSystem.attractors s)
              (length (ParticleSystem.particles s1)) s1 Hatts (le_n _))
    as (s' & front & Hloop & Hps & Hfront).
  exists s'. split; [exact Hloop|].
  rewrite drop_all, app_nil_r in Hps. rewrite firstn_all in Hfront.
  rewrite Hps. exact Hfront.
Qed.

(** ** The fallback face *)

Lemma Rabs_le_bounds (a b : R) : Rabs a <= b -> - b <= a <= b.
Proof.
  intros Hab. pose proof (Rle_abs a) as H1. pose proof (Rle_abs (- a)) as H2.
  rewrite Rabs_Ropp in H2. lra.
Qed.

Section FallbackFacts.

Variables width height : R.
Hypothesis width_nonneg : 0 <= width.
Hypothesis height_nonneg : 0 <= height.

(** Within 0.15 of the shorter side from the centre, along each axis. *)
Let centred (a : Vector.t) : Prop :=
  Rabs (Vector.x a - width / 2) <= 0.15 * Rmin width height
  /\ Rabs (Vector.y a - height / 2) <= 0.15 * Rmin width height
  /\ Vector.z a = 0.

Lemma centred_on_canvas (a : Vector.t) : centred a -> on_canvas width height a.
Proof.
  intros (Hx & Hy & _). unfold on_canvas.
  pose proof (Rmin_l width height). pose proof (Rmin_r width height).
  apply Rabs_le_bounds in Hx, Hy. lra.
Qed.

Lemma outline_centred (fuel : nat) :
  forall (angle : R) (acc : list Vector.t),
    Forall centred acc ->
    Forall centred
      (Sketch.outline fuel angle (width / 2) (height / 2)
         (P5.min width height * 0.3) acc).
Proof.
  assert (Hmin : 0 <= Rmin width height) by now apply Rmin_glb.
  induction fuel as [|fuel IH]; intros angle acc Hacc; simpl; [assumption|].
  case_decide; [|assumption].
  apply IH, Forall_app_2; [assumption|]. apply Forall_singleton.
  unfold centred, P5.min; simpl.
  pose proof (COS_bound angle) as Hcos. pose proof (SIN_bound angle) as Hsin.
  repeat split.
  - apply Rabs_le. nra.
  - apply Rabs_le. nra.
Qed.

Lemma facePattern_centred : Forall centred (Sketch.facePattern width height).
Proof.
  assert (Hmin : 0 <= Rmin width height) by now apply Rmin_glb.
  unfold Sketch.facePattern. apply outline_centred.
  unfold P5.min.
  repeat (apply Forall_cons; split); try apply Forall_nil;
    unfold centred; simpl; repeat split; try reflexivity; apply Rabs_le; lra.
Qed.

End FallbackFacts.

(** The outline loop: [k] turns done, the angle is [k * PI / 8]; up to
    the sixteenth turn the guard holds, after it the loop is over
    however much fuel is left. *)
Lemma outline_length (fuel k : nat) :
  forall (angle cx cy fs : R) (acc : list Vector.t),
    angle = INR k * (PI / 8) ->
    (k + fuel <= 16)%nat ->
    length (Sketch.outline fuel angle cx cy fs acc) = (length acc + fuel)%nat.
Proof.
  revert k. induction fuel as [|fuel IH]; intros k angle cx cy fs acc Hangle Hk; simpl.
  - lia.
  - assert (Hlt : INR k < 16).
    { replace 16 with (INR 16) by (rewrite INR_IZR_INZ; reflexivity).
      apply lt_INR. lia. }
    pose proof PI_RGT_0 as Hpi.
    rewrite decide_True by (rewrite Hangle; nra).
    rewrite (IH (S k)); [rewrite length_app; simpl; lia | | lia].
    rewrite S_INR, Hangle. ring.
Qed.

Lemma outline_stops (extra : nat) (cx cy fs : R) (acc : list Vector.t) :
  Sketch.outline extra (INR 16 * (PI / 8)) cx cy fs acc = acc.
Proof.
  destruct extra as [|extra]; simpl; [reflexivity|].
  rewrite decide_False; [reflexivity|].
  replace (INR 16) with 16 by (rewrite INR_IZR_INZ; reflexivity). lra.
Qed.

(** X11. The face pattern of the fallback mode has 21 attractors (five
    for eyes, nose and mouth, sixteen on the outline), all with [z = 0]
    and all on the canvas, within 0.15 of its shorter side from the
    centre along each axis. *)
Theorem facePattern_on_canvas (width height : R) :
  0 <= width -> 0 <= height ->
  length (Sketch.facePattern width height) = 21%nat
  /\ Forall (fun a =>
               on_canvas width height a
               /\ Rabs (Vector.x a - width / 2) <= 0.15 * Rmin width height
               /\ Rabs (Vector.y a - height / 2) <= 0.15 * Rmin width height
               /\ Vector.z a = 0)
            (Sketch.facePattern width height).
Proof.
  intros Hw Hh. split.
  - unfold Sketch.facePattern.
    rewrite (outline_length 16 0); [reflexivity | simpl; lra | lia].
  - eapply Forall_impl; [exact (facePattern_centred width height Hw Hh)|].
    intros a Ha. split; [now apply centred_on_canvas|exact Ha].
Qed.

Lemma facePattern_on_canvas_witness :
  0 <= 800 /\ 0 <= 600 /\ length (Sketch.facePattern 800 600) = 21%nat.
Proof.
  assert (Hw : 0 <= 800) by lra. assert (Hh : 0 <= 600) by lra.
  repeat split; try assumption.
  exact (proj1 (facePattern_on_canvas 800 600 Hw Hh)).
Defined.

(** ** A frame of the fallback mode *)

Lemma jitter_nudged (rand : nat -> R) (atts : list Vector.t) :
  unit_draws rand ->
  forall k, Forall2 nudged atts (Sketch.jitter rand k atts).
Proof.
  intros Hrand. induction atts as [|a atts IH]; intros k; simpl; constructor.
  - unfold nudged, P5.random; simpl.
    rewrite !decide_False by lra.
    pose proof (Hrand k) as H1. pose proof (Hrand (k + 1)%nat) as H2.
    repeat split; try reflexivity; apply Rabs_le; lra.
  - apply IH.
Qed.

Lemma facePattern_length (width height : R) :
  length (Sketch.facePattern width height) = 21%nat.
Proof.
  unfold Sketch.facePattern.
  rewrite (outline_length 16 0); [reflexivity | simpl; lra | lia].
Qed.

(** X12. A frame of the fallback mode always completes. It builds the
    face pattern only when there are no attractors, leaves a
    non-empty attractor list of the same length, each attractor moved
    by at most one unit along each axis, and leaves only live
    particles. *)
Theorem runFallbackMode_frame (width height : R) (rand : nat -> R)
    (s : ParticleSystem.t) :
  unit_draws rand ->
  let before :=
    if decide (length (ParticleSystem.attractors s) = 0)%nat
    then Sketch.facePattern width height
    else ParticleSystem.attractors s in
  exists s',
    Sketch.runFallbackMode width height rand s = Some s'
    /\ Forall2 nudged before (ParticleSystem.attractors s')
    /\ ParticleSystem.attractors s' <> []
    /\ ParticleSystem.maxParticles s' = ParticleSystem.maxParticles s
    /\ Forall alive (ParticleSystem.particles s').
Proof.
  intros Hrand before. unfold Sketch.runFallbackMode.
  set (s0 := if decide (length (ParticleSystem.attractors s) = 0)%nat
             then ParticleSystem.setAttractors s (Sketch.facePattern width height)
             else s).
  assert (Hs0 : ParticleSystem.attractors s0 = before
                /\ ParticleSystem.maxParticles s0 = ParticleSystem.maxParticles s).
  { subst s0 before. now case_decide. }
  destruct Hs0 as [Hatts0 Hmax0].
  assert (Hlen : (0 < length before)%nat).
  { subst before. case_decide; [rewrite facePattern_length|]; lia. }
  destruct (update_spec width height rand (fun _ => True) alive s0)
    as (s1 & Hup & _ & Halive & Hatts1 & Hmax1 & _);
    [easy | easy | | now apply Forall_true |].
  { intros p ps _. apply isDead_false_alive. }
  rewrite Hup. cbn [mbind option_bind]. rewrite Hatts1, Hatts0.
  rewrite decide_True by exact Hlen.
  eexists. split; [reflexivity|]. cbn [ParticleSystem.attractors
    ParticleSystem.maxParticles ParticleSystem.particles].
  pose proof (jitter_nudged rand before Hrand (ParticleSystem.drawn s1)) as Hnudged.
  repeat split; try assumption; try congruence.
  intros Hnil. rewrite Hnil in Hnudged.
  apply Forall2_nil_inv_r in Hnudged. rewrite Hnudged in Hlen. simpl in Hlen. lia.
Qed.

Lemma runFallbackMode_frame_witness :
  unit_draws Scene.halves
  /\ exists s',
       Sketch.runFallbackMode 800 600 Scene.halves Scene.lonely = Some s'
       /\ length (ParticleSystem.attractors s') = 21%nat.
Proof.
  split; [exact halves_unit|].
  destruct (runFallbackMode_frame 800 600 Scene.halves Scene.lonely halves_unit)
    as (s' & Hrun & Hnudged & _).
  exists s'. split; [exact Hrun|].
  rewrite <- (Forall2_length _ _ _ Hnudged). apply facePattern_length.
Defined.

(** ** From the mesh to the attractors *)

Lemma addFeaturePoints_loop_visited (landmarks : list FaceTracker.landmark)
    (indices : list nat) (spacing fuel : nat) :
  forall (i : nat) (keypoints : list Vector.t),
    FaceTracker.addFeaturePoints_loop fuel i spacing indices landmarks keypoints
    = keypoints ++ omap (keypoint_at landmarks) (visited fuel i spacing indices).
Proof.
  induction fuel as [|fuel IH]; intros i keypoints; simpl.
  - now rewrite app_nil_r.
  - destruct (indices !! i) as [idx|]; [|now rewrite app_nil_r].
    rewrite IH. simpl. unfold keypoint_at at 2.
    destruct (landmarks !! idx) as [l|]; simpl; [|reflexivity].
    now rewrite <- app_assoc.
Qed.

Lemma addFeaturePoints_feature (landmarks : list FaceTracker.landmark)
    (indices : list nat) (spacing : nat) (keypoints : list Vector.t) :
  FaceTracker.addFeaturePoints landmarks indices spacing keypoints
  = keypoints ++ omap (keypoint_at landmarks) (feature indices spacing).
Proof. apply addFeaturePoints_loop_visited. Qed.

Lemma omap_keypoint_at_nil (indices : list nat) :
  omap (keypoint_at []) indices = [].
Proof. induction indices as [|idx indices IH]; [reflexivity|exact IH]. Qed.

Lemma extractKeypoints_visited (landmarks : list FaceTracker.landmark) :
  FaceTracker.extractKeypoints landmarks
  = omap (keypoint_at landmarks) feature_indices.
Proof.
  unfold FaceTracker.extractKeypoints. case_decide as Hempty.
  - destruct landmarks; [|discriminate]. now rewrite omap_keypoint_at_nil.
  - rewrite !addFeaturePoints_feature. unfold feature_indices.
    rewrite !omap_app, app_nil_l, <- !app_assoc. reflexivity.
Qed.

Lemma length_omap_le {A B : Type} (f : A -> option B) (l : list A) :
  (length (omap f l) <= length l)%nat.
Proof. induction l as [|x l IH]; csimpl; [lia|]. destruct (f x); csimpl; lia. Qed.

Lemma length_omap_total {A B : Type} (f : A -> option B) (l : list A) :
  Forall (fun x => is_Some (f x)) l -> length (omap f l) = length l.
Proof.
  induction 1 as [|x l [y Hy] _ IH]; csimpl; [reflexivity|].
  rewrite Hy; csimpl. now rewrite IH.
Qed.

Lemma feature_indices_length : length feature_indices = 93%nat.
Proof. vm_compute. reflexivity. Qed.

Lemma feature_indices_bound : Forall (fun idx => (idx < 467)%nat) feature_indices.
Proof. apply (bool_decide_unpack _). vm_compute. exact I. Qed.

(** X13. [extractKeypoints] returns, in the order of its features, the
    point [(x, y, 0)] of every mesh landmark its index lists name and
    the mesh has: nothing for an empty mesh, never more than 93 points,
    and exactly 93 for a mesh of at least 467 landmarks. *)
Theorem extractKeypoints_spec (landmarks : list FaceTracker.landmark) :
  FaceTracker.extractKeypoints landmarks
  = omap (keypoint_at landmarks) feature_indices
  /\ (length landmarks = 0%nat -> FaceTracker.extractKeypoints landmarks = [])
  /\ (length (FaceTracker.extractKeypoints landmarks) <= 93)%nat
  /\ ((467 <= length landmarks)%nat ->
      length (FaceTracker.extractKeypoints landmarks) = 93%nat)
  /\ Forall (fun k =>
               exists l, l ∈ landmarks
                 /\ k = Vector.createVector (FaceTracker.lx l) (FaceTracker.ly l))
            (FaceTracker.extractKeypoints landmarks).
Proof.
  split; [apply extractKeypoints_visited|]. split; [|split; [|split]].
  - intros Hempty. unfold FaceTracker.extractKeypoints. now rewrite decide_True.
  - rewrite extractKeypoints_visited, <- feature_indices_length.
    apply length_omap_le.
  - intros Hfull. rewrite extractKeypoints_visited, <- feature_indices_length.
    apply length_omap_total.
    eapply Forall_impl; [exact feature_indices_bound|].
    intros idx Hidx. unfold keypoint_at.
    assert (Hin : (idx < length landmarks)%nat)
      by (eapply Nat.lt_le_trans; [exact Hidx | exact Hfull]).
    destruct (lookup_lt_is_Some_2 landmarks idx Hin) as [l ->]. now eexists.
  - rewrite extractKeypoints_visited. apply Forall_forall. intros k Hk.
    apply list_elem_of_omap in Hk as (idx & _ & Hidx).
    unfold keypoint_at in Hidx.
    destruct (landmarks !! idx) as [l|] eqn:Hl; [|discriminate].
    injection Hidx as <-. exists l. split; [|reflexivity].
    now apply list_elem_of_lookup_2 with idx.
Qed.

Lemma extractKeypoints_spec_witness :
  (length (@nil FaceTracker.landmark) = 0%nat
   /\ FaceTracker.extractKeypoints [] = [])
  /\ ((467 <= length (replicate 468 (FaceTracker.mkLandmark 320 240 0)))%nat
      /\ length (FaceTracker.extractKeypoints
                   (replicate 468 (FaceTracker.mkLandmark 320 240 0))) = 93%nat).
Proof.
  split.
  - split; [reflexivity|].
    exact (proj1 (proj2 (extractKeypoints_spec [])) eq_refl).
  - assert (Hfull : (467 <= length (replicate 468 (FaceTracker.mkLandmark 320 240 0)))%nat).
    { rewrite length_replicate. apply Nat.le_succ_diag_r. }
    split; [exact Hfull|].
    exact (proj1 (proj2 (proj2 (proj2
             (extractKeypoints_spec (replicate 468 (FaceTracker.mkLandmark 320 240 0))))))
             Hfull).
Defined.

(** X14. When a detection reports no face, or a face with an empty
    mesh, the tracker's keypoints and landmarks are emptied, and the
    frame that hands them to the particle system attracts no particle:
    after [update] every particle has [isAttracted] false. *)
Theorem no_face_no_attraction (width height : R) (rand : nat -> R)
    (ft : FaceTracker.t) (results : list (list FaceTracker.landmark))
    (s : ParticleSystem.t) :
  head results = None \/ head results = Some [] ->
  let ft' := FaceTracker.processFaceDetection ft results in
  FaceTracker.getKeypoints ft' = []
  /\ FaceTracker.getLandmarks ft' = []
  /\ FaceTracker.isTrackerReady ft' = FaceTracker.isTrackerReady ft
  /\ exists s',
       ParticleSystem.update width height rand
         (ParticleSystem.setAttractors s (FaceTracker.getKeypoints ft')) = Some s'
       /\ Forall unattracted (ParticleSystem.particles s').
Proof.
  intros Hnone ft'.
  assert (Hkeys : FaceTracker.getKeypoints ft' = []
                  /\ FaceTracker.getLandmarks ft' = []).
  { subst ft'. destruct results as [|mesh rest]; [easy|].
    destruct Hnone as [Hnone | Hnone]; [discriminate|].
    injection Hnone as ->. easy. }
  destruct Hkeys as [Hkeys Hlms].
  split; [exact Hkeys|]. split; [exact Hlms|]. split.
  { subst ft'. now destruct results. }
  rewrite Hkeys.
  destruct (update_spec width height rand (fun _ => True) unattracted
              (ParticleSystem.setAttractors s []))
    as (s' & Hup & _ & Hflag & _);
    [easy | easy | | now apply Forall_true | eauto].
  intros p ps _ _. unfold unattracted. now rewrite process_isAttracted.
Qed.

Lemma no_face_no_attraction_witness :
  head (@nil (list FaceTracker.landmark)) = None
  /\ FaceTracker.getKeypoints
       (FaceTracker.processFaceDetection FaceTracker.new []) = [].
Proof.
  split; [reflexivity|].
  exact (proj1 (no_face_no_attraction 800 600 Scene.halves FaceTracker.new []
                  Scene.lonely (or_introl eq_refl))).
Defined.

(** ** The direction of the flocking forces *)

Lemma mag_zero_components (w : Vector.t) :
  Vector.mag w = 0 -> Vector.x w = 0 /\ Vector.y w = 0 /\ Vector.z w = 0.
Proof.
  intros Hmag. pose proof (mag_sq w) as Hsq. rewrite Hmag in Hsq.
  unfold Vector.magSq in Hsq.
  pose proof (Rle_0_sqr (Vector.x w)) as Hx.
  pose proof (Rle_0_sqr (Vector.y w)) as Hy.
  pose proof (Rle_0_sqr (Vector.z w)) as Hz.
  unfold Rsqr in *. repeat split; nra.
Qed.

(** Steering toward a desired direction [w], clamped: never against
    [w] for a particle within its speed bound. *)
Lemma steer_toward (p : Particle.t) (w : Vector.t) :
  0 <= Particle.maxForce p ->
  Vector.mag (Particle.velocity p) <= Particle.maxSpeed p ->
  0 <= dot (Vector.limit
              (Vector.sub (Vector.mult (Vector.normalize w) (Particle.maxSpeed p))
                          (Particle.velocity p))
              (Particle.maxForce p)) w.
Proof.
  intros Hf Hv.
  destruct (limit_scales
              (Vector.sub (Vector.mult (Vector.normalize w) (Particle.maxSpeed p))
                          (Particle.velocity p))
              (Particle.maxForce p) Hf) as (c & Hc & _ & Hx & Hy & Hz).
  rewrite (dot_scaled _ w c _ Hx Hy Hz).
  apply Rmult_le_pos; [|exact Hc].
  pose proof (mag_nonneg w) as Hw0.
  destruct (Req_dec (Vector.mag w) 0) as [Hzero|Hpos].
  - destruct (mag_zero_components w Hzero) as (Hwx & Hwy & Hwz).
    unfold dot. rewrite Hwx, Hwy, Hwz. lra.
  - rewrite seek_unclamped_dot by lra.
    pose proof (dot_le_mag (Particle.velocity p) w) as Hcs.
    pose proof (mag_nonneg (Particle.velocity p)) as Hv0. nra.
Qed.

Lemma dot_zero_force (w : Vector.t) : dot (Vector.createVector 0 0) w = 0.
Proof. unfold dot; simpl. ring. Qed.

(** X15. For a particle within its speed bound, no flocking force
    opposes what it steers by: [separate] never points against the
    averaged away-direction, [align] never against the neighbours'
    average velocity, and [cohesion] never away from the neighbours'
    average position. *)
Theorem flocking_never_opposes (p : Particle.t) (ps : list Particle.t)
    (radius : R) :
  0 <= Particle.maxForce p ->
  Vector.mag (Particle.velocity p) <= Particle.maxSpeed p ->
  0 <= dot (Particle.separate p ps radius) (away p ps radius)
  /\ 0 <= dot (Particle.align p ps radius) (heading p ps radius)
  /\ 0 <= dot (Particle.cohesion p ps radius)
              (Vector.sub (centre p ps radius) (Particle.position p)).
Proof.
  intros Hf Hv. split; [|split].
  - unfold Particle.separate, away.
    destruct (fold_left _ ps _) as [steer count].
    set (w := if decide (0 < count)%nat then Vector.div steer (INR count) else steer).
    case_decide.
    + now apply steer_toward.
    + change (dot w w) with (Vector.magSq w). apply magSq_nonneg.
  - unfold Particle.align, heading.
    destruct (fold_left _ ps _) as [sum count].
    case_decide.
    + now apply steer_toward.
    + rewrite dot_zero_force. lra.
  - unfold Particle.cohesion, centre.
    destruct (fold_left _ ps _) as [sum count].
    case_decide; [|rewrite dot_zero_force; lra].
    unfold Particle.seek. case_decide; [rewrite dot_zero_force; lra|].
    rewrite (dot_scaled (Vector.limit _ (Particle.maxForce p)) _ 0.5) by reflexivity.
    apply Rmult_le_pos; [|lra]. now apply steer_toward.
Qed.

Lemma flocking_never_opposes_witness :
  0 <= Particle.maxForce Scene.fleeing
  /\ Vector.mag (Particle.velocity Scene.fleeing) <= Particle.maxSpeed Scene.fleeing
  /\ 0 <= dot (Particle.separate Scene.fleeing [Scene.fleeing; Scene.drifting] 25)
              (away Scene.fleeing [Scene.fleeing; Scene.drifting] 25).
Proof.
  assert (Hf : 0 <= Particle.maxForce Scene.fleeing) by (simpl; lra).
  assert (Hv : Vector.mag (Particle.velocity Scene.fleeing)
               <= Particle.maxSpeed Scene.fleeing).
  { rewrite mag_fleeing_velocity. simpl. lra. }
  repeat split; try assumption.
  exact (proj1 (flocking_never_opposes Scene.fleeing
                  [Scene.fleeing; Scene.drifting] 25 Hf Hv)).
Defined.

(** ** Attraction keeps a particle alive *)

(** X16. A live particle with the constructor's decay range that has
    an attractor closer than 150 units survives the pass: after its
    [update] it is flagged attracted, it is not dead, and its lifespan
    has grown by twice its decay or reached the cap of 255. *)
Theorem attracted_survives (width height : R) (p : Particle.t)
    (ps : list Particle.t) (atts : list Vector.t) (a : Vector.t) :
  well_formed p -> alive p ->
  a ∈ atts -> Vector.dist (Particle.position p) a < 150 ->
  let p' := ParticleSystem.process width height p ps atts in
  Particle.isAttracted p' = true
  /\ Particle.isDead p' = false
  /\ Particle.lifespan p'
     = Rmin 255 (Particle.lifespan p + 2 * Particle.decay p)
  /\ Particle.lifespan p <= Particle.lifespan p'.
Proof.
  intros (_ & _ & Hd & Hl) Halive Hin Hr p'.
  assert (Hsome : is_Some (ParticleSystem.attraction p atts)).
  { unfold ParticleSystem.attraction.
    rewrite decide_True by (destruct atts; [now apply elem_of_nil in Hin | simpl; lia]).
    destruct (closest_fold_min (Particle.position p) atts None
                (Vector.dist (Particle.position p) a) Hr)
      as (d & a' & Hfold & _); [right; eauto using Rle_refl|].
    unfold ParticleSystem.closest. rewrite Hfold. now eexists. }
  assert (Hflag : Particle.isAttracted p' = true).
  { unfold p'. rewrite process_isAttracted. now apply bool_decide_eq_true_2. }
  assert (Hlife : Particle.lifespan p'
                  = Rmin 255 (Particle.lifespan p + 2 * Particle.decay p)).
  { unfold p'. rewrite process_lifespan, process_isAttracted.
    rewrite bool_decide_eq_true_2 by exact Hsome.
    unfold P5.min. f_equal. ring. }
  unfold alive in Halive.
  assert (Hgrow : Particle.lifespan p <= Particle.lifespan p').
  { rewrite Hlife. apply Rmin_glb; lra. }
  repeat split; try assumption.
  apply bool_decide_eq_false_2. lra.
Qed.

Lemma attracted_survives_witness :
  Particle.isDead
    (ParticleSystem.process 800 600 Scene.fleeing [Scene.fleeing]
       [Scene.far_landmark; Scene.landmark]) = false.
Proof.
  refine (proj1 (proj2 (attracted_survives 800 600 Scene.fleeing [Scene.fleeing]
                          [Scene.far_landmark; Scene.landmark] Scene.landmark
                          _ _ _ _))).
  - unfold well_formed; simpl. lra.
  - unfold alive; simpl. lra.
  - right. left.
  - rewrite dist_fleeing_landmark. lra.
Defined.

(** X17. After the pass has processed a particle, its flag tells
    whether some attractor of the list was closer than 150 units to
    the position it had: [isAttracted] is true exactly then, however
    many attractors there are and wherever the others lie. *)
Theorem attracted_iff_in_range (width height : R) (p : Particle.t)
    (ps : list Particle.t) (atts : list Vector.t) :
  Particle.isAttracted (ParticleSystem.process width height p ps atts) = true
  <-> exists a, a ∈ atts /\ Vector.dist (Particle.position p) a < 150.
Proof.
  rewrite process_isAttracted, bool_decide_eq_true. split.
  - intros [force Hforce]. apply attraction_inv in Hforce as (a & Hin & Hr & _).
    eauto.
  - intros (a & Hin & Hr). unfold ParticleSystem.attraction.
    rewrite decide_True by (destruct atts; [now apply elem_of_nil in Hin | simpl; lia]).
    destruct (closest_fold_min (Particle.position p) atts None
                (Vector.dist (Particle.position p) a) Hr)
      as (d & a' & Hfold & _); [right; eauto using Rle_refl|].
    unfold ParticleSystem.closest. rewrite Hfold. now eexists.
Qed.

Lemma attracted_iff_in_range_witness :
  (exists a, a ∈ [Scene.far_landmark; Scene.landmark]
     /\ Vector.dist (Particle.position Scene.fleeing) a < 150)
  /\ Particle.isAttracted
       (ParticleSystem.process 800 600 Scene.fleeing [Scene.fleeing]
          [Scene.far_landmark; Scene.landmark]) = true.
Proof.
  assert (Hnear : exists a, a ∈ [Scene.far_landmark; Scene.landmark]
                    /\ Vector.dist (Particle.position Scene.fleeing) a < 150).
  { exists Scene.landmark. split; [right; left|].
    rewrite dist_fleeing_landmark. lra. }
  split; [exact Hnear|].
  exact (proj2 (attracted_iff_in_range 800 600 Scene.fleeing [Scene.fleeing]
                  [Scene.far_landmark; Scene.landmark]) Hnear).
Defined.
